(** * PyALTO: routing-table parsers, CORE topology data and the
      residual-bandwidth cost provider

    A shallow embedding of
    - [PyALTO-node/nethelpers.py] (kernel and Quagga routing-table parsers,
      [ip addr] line parser),
    - [PyALTO-server/altoserver/corenetdata.py] (adapter/bridge topology),
    - [PyALTO-server/altoserver/alto/costproviders/pathloadcostprovider.py]
      (residual path bandwidth),
    followed by the properties established about them.

    Python exceptions are values of [exn]; a function that may raise returns
    a [result].  Numbers are Python integers ([Z]); text is byte strings. *)

From Stdlib Require Import ZArith Lia Ascii String.
From stdpp Require Import base option list strings gmap.

Local Open Scope string_scope.
Local Open Scope list_scope.
Local Open Scope Z_scope.

(** ** The fragment of the Python runtime used by the sources *)
Module Py.

Inductive exn : Set :=
  | ValueError
  | IndexError
  | KeyError
  | UnboundLocalError
  | NotImplementedError
  | AssertionError
  | BinasciiError
  | AddressValueError.

Inductive result (A : Type) : Type :=
  | Ret (a : A)
  | Raise (e : exn).
Arguments Ret {A} a.
Arguments Raise {A} e.

#[global] Instance result_ret : MRet result := fun A a => Ret a.
#[global] Instance result_bind : MBind result := fun A B f m =>
  match m with
  | Ret a => f a
  | Raise e => Raise e
  end.

#[global] Instance result_fmap : FMap result := fun A B f m =>
  match m with
  | Ret a => Ret (f a)
  | Raise e => Raise e
  end.

Definition raises {A} (m : result A) : Prop :=
  match m with
  | Ret _ => False
  | Raise _ => True
  end.

(** A call of [logging.error], [logging.warning] or [logging.info], with its
    format string. *)
Inductive log_record : Set :=
  | LogError (msg : string)
  | LogWarning (msg : string)
  | LogInfo (msg : string).

(** [s.split(sep)] for a one-character separator. *)
Fixpoint split (sep : ascii) (s : string) : list string :=
  match s with
  | EmptyString => [EmptyString]
  | String c s' =>
      if Ascii.eqb c sep then EmptyString :: split sep s'
      else match split sep s' with
           | w :: ws => String c w :: ws
           | [] => [String c EmptyString]
           end
  end.

Fixpoint mem_char (c : ascii) (chars : string) : bool :=
  match chars with
  | EmptyString => false
  | String d chars' => Ascii.eqb c d || mem_char c chars'
  end.

Fixpoint lstrip (chars s : string) : string :=
  match s with
  | EmptyString => EmptyString
  | String c s' => if mem_char c chars then lstrip chars s' else s
  end.

Fixpoint rstrip (chars s : string) : string :=
  match s with
  | EmptyString => EmptyString
  | String c s' =>
      match rstrip chars s' with
      | EmptyString => if mem_char c chars then EmptyString else String c EmptyString
      | r => String c r
      end
  end.

(** [s.strip(chars)] *)
Definition strip (chars s : string) : string := rstrip chars (lstrip chars s).

(** [s[i]] for an index [i >= 0]; the result is a one-character string. *)
Definition str_getitem (s : string) (i : nat) : result string :=
  match String.get i s with
  | Some c => Ret (String c EmptyString)
  | None => Raise IndexError
  end.

(** [l[i]] with Python's negative indices. *)
Definition getitem {A} (l : list A) (i : Z) : result A :=
  let n := Z.of_nat (length l) in
  let j := if i <? 0 then i + n else i in
  if (0 <=? j) && (j <? n) then
    match l !! Z.to_nat j with
    | Some x => Ret x
    | None => Raise IndexError
    end
  else Raise IndexError.

(** Tuple unpacking [(a, b) = l]. *)
Definition unpack2 {A} (l : list A) : result (A * A) :=
  match l with
  | [a; b] => Ret (a, b)
  | _ => Raise ValueError
  end.

(** Whitespace as [int()] skips it around the digits.  A string is a
    sequence of code points below 256: of those, [int()] skips TAB, LF, VT,
    FF, CR and the space, and NEL (133) and NBSP (160), which it first turns
    into spaces.  The separators FS, GS, RS and US (28 to 31) are not
    skipped, and no code point from 128 to 255 is a decimal digit. *)
Definition whitespace : string :=
  String "009" (String "010" (String "011" (String "012" (String "013"
  (String " " (String "133" (String "160" EmptyString))))))).

Definition digit_val (c : ascii) : option Z :=
  let n := Z.of_N (N_of_ascii c) in
  if (48 <=? n) && (n <=? 57) then Some (n - 48) else None.

(** Decimal digits, single underscores allowed between two digits. *)
Fixpoint int_digits (acc : Z) (after_digit : bool) (s : string) : option Z :=
  match s with
  | EmptyString => if after_digit then Some acc else None
  | String c s' =>
      match digit_val c with
      | Some d => int_digits (10 * acc + d) true s'
      | None =>
          if Ascii.eqb c "_" && after_digit then int_digits acc false s'
          else None
      end
  end.

(** [int(s)] on a string, base 10. *)
Definition int (s : string) : result Z :=
  let body := strip whitespace s in
  let parsed :=
    match body with
    | String "-" ds => Z.opp <$> int_digits 0 false ds
    | String "+" ds => int_digits 0 false ds
    | ds => int_digits 0 false ds
    end in
  match parsed with
  | Some z => Ret z
  | None => Raise ValueError
  end.

Definition hex_val (c : ascii) : option Z :=
  let n := Z.of_N (N_of_ascii c) in
  if (48 <=? n) && (n <=? 57) then Some (n - 48)
  else if (65 <=? n) && (n <=? 70) then Some (n - 55)
  else if (97 <=? n) && (n <=? 102) then Some (n - 87)
  else None.

(** [binascii.unhexlify(s)]: two hexadecimal digits per byte. *)
Fixpoint unhexlify (s : string) : result (list Z) :=
  match s with
  | EmptyString => Ret []
  | String _ EmptyString => Raise BinasciiError
  | String h (String l s') =>
      match hex_val h, hex_val l with
      | Some vh, Some vl => bs ← unhexlify s'; Ret ((16 * vh + vl) :: bs)
      | _, _ => Raise BinasciiError
      end
  end.

(** [sys.byteorder] *)
Inductive byteorder : Set := little | big.

Fixpoint from_bytes_little (bs : list Z) : Z :=
  match bs with
  | [] => 0
  | b :: bs' => b + 256 * from_bytes_little bs'
  end.

(** [int.from_bytes(bs, order)] *)
Definition from_bytes (bs : list Z) (order : byteorder) : Z :=
  match order with
  | little => from_bytes_little bs
  | big => from_bytes_little (rev bs)
  end.

(** [str(n)] for an integer [0 <= n < 1000]. *)
Definition str_small (n : Z) : string :=
  let d (k : Z) := String (ascii_of_N (Z.to_N (48 + k))) EmptyString in
  if n <? 10 then d n
  else if n <? 100 then d (n / 10) +:+ d (n mod 10)
  else d (n / 100) +:+ d ((n / 10) mod 10) +:+ d (n mod 10).

(** [str(ipaddress.IPv4Address(addr))] for an integer [addr]. *)
Definition IPv4Address_str (addr : Z) : result string :=
  if (addr <? 0) || (4294967295 <? addr) then Raise AddressValueError
  else Ret (str_small (Z.land (Z.shiftr addr 24) 255) +:+ "." +:+
            str_small (Z.land (Z.shiftr addr 16) 255) +:+ "." +:+
            str_small (Z.land (Z.shiftr addr 8) 255) +:+ "." +:+
            str_small (Z.land addr 255)).

End Py.
Import Py.

(** ** [PyALTO-node/nethelpers.py] *)
Module NetHelpers.

(** Values stored in the dictionary built by [_parse_rt_line]. *)
Inductive rt_value : Set :=
  | VStr (s : string)
  | VInt (z : Z)
  | VFlags (l : list string).

(** The hexadecimal address columns:
    [str(ipaddress.IPv4Address(int.from_bytes(binascii.unhexlify(word), sys.byteorder)))] *)
Definition hex_addr (order : byteorder) (word : string) : result string :=
  bs ← unhexlify word;
  IPv4Address_str (from_bytes bs order).

(** The flags column. *)
Definition rt_flags (int_flags : Z) : list string :=
  (if Z.eqb (Z.land int_flags 1) 0 then [] else ["U"]) ++
  (if Z.eqb (Z.land int_flags 2) 0 then [] else ["G"]).

(** One iteration of the loop over [enumerate(str_line.split('\t'))]. *)
Definition rt_token (order : byteorder) (index : nat) (word : string)
    (st : gmap string rt_value * list log_record)
    : result (gmap string rt_value * list log_record) :=
  let '(rt_line, log) := st in
  match index with
  | 0%nat => Ret (<["ifname" := VStr word]> rt_line, log)
  | 1%nat => addr ← hex_addr order word;
             Ret (<["destination" := VStr addr]> rt_line, log)
  | 2%nat => addr ← hex_addr order word;
             Ret (<["gateway" := VStr addr]> rt_line, log)
  | 3%nat => int_flags ← int word;
             Ret (<["flags" := VFlags (rt_flags int_flags)]> rt_line, log)
  | 4%nat => v ← int word; Ret (<["refcnt" := VInt v]> rt_line, log)
  | 5%nat => v ← int word; Ret (<["use" := VInt v]> rt_line, log)
  | 6%nat => v ← int word; Ret (<["metric" := VInt v]> rt_line, log)
  | 7%nat => addr ← hex_addr order word;
             Ret (<["mask" := VStr addr]> rt_line, log)
  | 8%nat => v ← int word; Ret (<["mtu" := VInt v]> rt_line, log)
  | 9%nat => v ← int word; Ret (<["window" := VInt v]> rt_line, log)
  | 10%nat => v ← int word; Ret (<["irtt" := VInt v]> rt_line, log)
  | _ => Ret (rt_line, log ++ [LogError "Unexpected number of RT line tokens!"])
  end.

Fixpoint rt_tokens (order : byteorder) (index : nat) (words : list string)
    (st : gmap string rt_value * list log_record)
    : result (gmap string rt_value * list log_record) :=
  match words with
  | [] => Ret st
  | word :: words' =>
      st' ← rt_token order index word st;
      rt_tokens order (S index) words' st'
  end.

(** [_parse_rt_line(str_line)]: the dictionary and what was logged. *)
Definition _parse_rt_line (order : byteorder) (str_line : string)
    : result (gmap string rt_value * list log_record) :=
  rt_tokens order 0 (split "009" str_line) (∅, []).

(** The loop of [get_routing_table] over the lines of [/proc/net/route]. *)
Fixpoint rt_lines (order : byteorder) (first_line : bool) (rt_hdl : list string)
    (rt_entries : list (gmap string rt_value)) (log : list log_record)
    : result (list (gmap string rt_value) * list log_record) :=
  match rt_hdl with
  | [] => Ret (rt_entries, log)
  | rt_line :: rt_hdl' =>
      if first_line then rt_lines order false rt_hdl' rt_entries log
      else if decide (rt_line = String "010" EmptyString) then
        rt_lines order first_line rt_hdl' rt_entries log
      else if decide (rt_line = EmptyString) then Ret (rt_entries, log)
      else
        '(entry, log') ← _parse_rt_line order rt_line;
        rt_lines order first_line rt_hdl' (rt_entries ++ [entry]) (log ++ log')
  end.

Definition get_routing_table (order : byteorder) (rt_hdl : list string)
    : result (list (gmap string rt_value) * list log_record) :=
  rt_lines order true rt_hdl [] [].

(** The dictionary [data] of [_parse_ip_addr_single_line]. *)
Record addr_data : Set := {
  id : option string;
  name : string;
  family : string;
  address : string;
  brd : string;
  scope : string;
  valid_left : option Z;
  preferred_left : option Z
}.

(** [_parse_ip_addr_single_line(line)] *)
Definition _parse_ip_addr_single_line (line : string) : result addr_data :=
  '(block1, block2) ← unpack2 (split "\" line);
  (* Process block one *)
  let tokens := split " " block1 in
  t0 ← getitem tokens 0;
  let d_id := Some (strip ":" t0) in
  d_name ← getitem tokens 1;
  d_family ← getitem tokens 2;
  d_address ← getitem tokens 3;
  '(d_brd, scope_val_id) ←
      (if decide (d_family = "inet") then
         b ← getitem tokens 5; Ret (b, 7)
       else Ret (EmptyString, 5));
  d_scope ← getitem tokens scope_val_id;
  (* Process block 2 *)
  let tokens := split " " block2 in
  t1 ← getitem tokens 1;
  d_valid_left ←
      (if decide (t1 = "forever") then Ret (-1)
       else
         t1 ← getitem tokens 1; int (strip "sec" t1));
  t3 ← getitem tokens 3;
  d_preferred_left ←
      (if decide (t3 = "forever") then Ret (-1)
       else
         t1 ← getitem tokens 1; int (strip "sec" t1));
  Ret {| id := d_id; name := d_name; family := d_family;
         address := d_address; brd := d_brd; scope := d_scope;
         valid_left := Some d_valid_left;
         preferred_left := Some d_preferred_left |}.

(** An entry of the list returned by [_process_quagga_rt]. *)
Record route : Set := {
  protocol : option string;
  selected : bool;
  fib : bool;
  subnet : option string;
  AD : option Z;
  RD : option Z;
  GW : option string;
  Int : string
}.

(** The state kept between lines: [last_proto], [last_subnet], [last_ad],
    [last_rd] and [cached]. *)
Record cache : Set := {
  last_proto : option string;
  last_subnet : option string;
  last_ad : option Z;
  last_rd : option Z;
  cached : bool
}.

(** The locals [subnet], [ad], [rd], [gw] and [adapter]: they are assigned
    inside the branches only and keep their value from one iteration to the
    next; [None] is a name not bound yet. *)
Record fields : Set := {
  v_subnet : option (option string);
  v_ad : option (option Z);
  v_rd : option (option Z);
  v_gw : option (option string);
  v_adapter : option string
}.

Definition set_last_subnet (c : cache) (s : option string) : cache :=
  {| last_proto := last_proto c; last_subnet := s; last_ad := last_ad c;
     last_rd := last_rd c; cached := cached c |}.

Definition set_last_ad_rd (c : cache) (ad rd : option Z) : cache :=
  {| last_proto := last_proto c; last_subnet := last_subnet c; last_ad := ad;
     last_rd := rd; cached := cached c |}.

(** Reading a local variable. *)
Definition load {A} (v : option A) : result A :=
  match v with
  | Some x => Ret x
  | None => Raise UnboundLocalError
  end.

(** [(ad, rd) = tokens[i].strip('[]').split('/')], then [int] of both. *)
Definition parse_ad_rd (tokens : list string) (i : Z) : result (Z * Z) :=
  t ← getitem tokens i;
  '(ad, rd) ← unpack2 (split "/" (strip "[]" t));
  ad ← int ad;
  rd ← int rd;
  Ret (ad, rd).

(** [proto == 'C']: the loop looking for the first ['is']. *)
Fixpoint connected_loop (tokens rest : list string) (num : Z)
    (st : cache * fields) : result (cache * fields) :=
  match rest with
  | [] => Ret st
  | token :: rest' =>
      if decide (token = "is") then
        subnet ← getitem tokens (num - 1);
        let c := set_last_subnet st.1 (Some subnet) in
        adapter ← getitem tokens (num + 3);
        Ret (c, {| v_subnet := Some (Some subnet); v_ad := Some None;
                   v_rd := Some None; v_gw := Some None;
                   v_adapter := Some adapter |})
      else connected_loop tokens rest' (num + 1) st
  end.

(** ['via' in tokens]: the loop looking for the first ['via']. *)
Fixpoint via_loop (tokens rest : list string) (num : Z)
    (st : cache * fields) : result (cache * fields) :=
  match rest with
  | [] => Ret st
  | token :: rest' =>
      if decide (token = "via") then
        '(c, subnet, ad, rd) ←
           (if cached st.1 then
              Ret (st.1, last_subnet st.1, last_ad st.1, last_rd st.1)
            else
              subnet ← getitem tokens (num - 2);
              let c := set_last_subnet st.1 (Some subnet) in
              '(ad, rd) ← parse_ad_rd tokens (num - 1);
              Ret (set_last_ad_rd c (Some ad) (Some rd),
                   Some subnet, Some ad, Some rd));
        t ← getitem tokens (num + 1);
        let gw := strip "," t in
        t ← getitem tokens (num + 2);
        let adapter := strip "," t in
        Ret (c, {| v_subnet := Some subnet; v_ad := Some ad; v_rd := Some rd;
                   v_gw := Some (Some gw); v_adapter := Some adapter |})
      else via_loop tokens rest' (num + 1) st
  end.

(** ['is' in tokens]: the loop over every ['is'] (it has no [break]). *)
Fixpoint is_loop (tokens rest : list string) (num : Z)
    (st : cache * fields) : result (cache * fields) :=
  match rest with
  | [] => Ret st
  | token :: rest' =>
      if decide (token = "is") then
        subnet ← getitem tokens (num - 2);
        let c := set_last_subnet st.1 (Some subnet) in
        '(ad, rd) ← parse_ad_rd tokens (num - 1);
        let c := set_last_ad_rd c (Some ad) (Some rd) in
        t ← getitem tokens (num + 3);
        let adapter := strip "," t in
        is_loop tokens rest' (num + 1)
          (c, {| v_subnet := Some (Some subnet); v_ad := Some (Some ad);
                 v_rd := Some (Some rd); v_gw := Some None;
                 v_adapter := Some adapter |})
      else is_loop tokens rest' (num + 1) st
  end.

(** The body of the loop over the lines, for a line that is not a header. *)
Definition quagga_line (st : cache * fields) (line : string)
    : result (cache * fields * route) :=
  (* Type Code *)
  c0 ← str_getitem line 0;
  let '(proto, c) :=
    if decide (c0 = " ") then
      (last_proto st.1,
       {| last_proto := last_proto st.1; last_subnet := last_subnet st.1;
          last_ad := last_ad st.1; last_rd := last_rd st.1; cached := true |})
    else
      (Some c0,
       {| last_proto := Some c0; last_subnet := None; last_ad := None;
          last_rd := None; cached := false |}) in
  (* Selected *)
  c1 ← str_getitem line 1;
  let selected := bool_decide (c1 = ">") in
  (* FIB *)
  c2 ← str_getitem line 2;
  let fib := bool_decide (c2 = "*") in
  let tokens := split " " line in
  st' ←
    (if decide (proto = Some "C") then connected_loop tokens tokens 0 (c, st.2)
     else if decide ("via" ∈ tokens) then via_loop tokens tokens 0 (c, st.2)
     else if decide ("is" ∈ tokens) then is_loop tokens tokens 0 (c, st.2)
     else Raise NotImplementedError);
  subnet ← load (v_subnet st'.2);
  ad ← load (v_ad st'.2);
  rd ← load (v_rd st'.2);
  gw ← load (v_gw st'.2);
  adapter ← load (v_adapter st'.2);
  Ret (st', {| protocol := proto; selected := selected; fib := fib;
               subnet := subnet; AD := ad; RD := rd; GW := gw;
               Int := adapter |}).

(** The loop [for lineno, line in enumerate(in_lines)]. *)
Fixpoint quagga_lines (st : cache * fields) (lineno : nat)
    (in_lines : list string) (out : list route) : result (list route) :=
  match in_lines with
  | [] => Ret out
  | line :: in_lines' =>
      if decide (lineno ∈ [0; 1; 2; 3]%nat) then
        quagga_lines st (S lineno) in_lines' out
      else
        '(st', r) ← quagga_line st line;
        quagga_lines st' (S lineno) in_lines' (out ++ [r])
  end.

Definition initial_state : cache * fields :=
  ({| last_proto := None; last_subnet := None; last_ad := None;
      last_rd := None; cached := false |},
   {| v_subnet := None; v_ad := None; v_rd := None; v_gw := None;
      v_adapter := None |}).

(** [_process_quagga_rt(in_lines)] *)
Definition _process_quagga_rt (in_lines : list string) : result (list route) :=
  quagga_lines initial_state 0 in_lines [].

(** [get_quagga_rt()], from the lines read from [vtysh] with their newlines
    removed; [None] is Python's [None]. *)
Definition get_quagga_rt (lines : list string) : result (option (list route)) :=
  if decide (length lines < 5)%nat then Ret None
  else Some <$> _process_quagga_rt lines.

End NetHelpers.

(** ** [PyALTO-server/altoserver/corenetdata.py] *)
Module CoreNetData.

(** [_bridges = { bridge_name -> [global_a, global_b] }] and
    [_mappings = { hostname -> [[global, local], ...] }], in the order of
    the dictionaries. *)
Record CoreNetData : Set := {
  _bridges : list (string * (string * string));
  _mappings : list (string * list (string * string));
  valid : bool
}.

(** The class attributes a new object starts from. *)
Definition new : CoreNetData :=
  {| _bridges := []; _mappings := []; valid := false |}.

(** [d.get(key)] *)
Fixpoint dict_get {V} (d : list (string * V)) (key : string) : option V :=
  match d with
  | [] => None
  | (k, v) :: d' => if decide (k = key) then Some v else dict_get d' key
  end.

(** The loop of [get_nodes_global_name]. *)
Fixpoint global_name_of (node_adapters : list (string * string))
    (adapter_name : string) : option string :=
  match node_adapters with
  | [] => None
  | (global_name, local_name) :: rest =>
      if decide (local_name = adapter_name) then Some global_name
      else global_name_of rest adapter_name
  end.

Definition get_nodes_global_name (self : CoreNetData)
    (node_name adapter_name : string) : option string :=
  match dict_get (_mappings self) node_name with
  | None => None
  | Some node_adapters => global_name_of node_adapters adapter_name
  end.

(** The loop of [get_nodes_local_name]. *)
Fixpoint local_name_of (node_adapters : list (string * string))
    (adapter_name : string) : option string :=
  match node_adapters with
  | [] => None
  | (global_name, local_name) :: rest =>
      if decide (global_name = adapter_name) then Some local_name
      else local_name_of rest adapter_name
  end.

Definition get_nodes_local_name (self : CoreNetData)
    (node_name adapter_name : string) : option string :=
  match dict_get (_mappings self) node_name with
  | None => None
  | Some node_adapters => local_name_of node_adapters adapter_name
  end.

(** The loop of [_get_peer_adapter] over [self._bridges.values()]. *)
Fixpoint peer_of (bridges : list (string * (string * string)))
    (glob_adapter : string) : option string :=
  match bridges with
  | [] => None
  | (_, (peer_a, peer_b)) :: rest =>
      if decide (peer_a = glob_adapter) then Some peer_b
      else if decide (peer_b = glob_adapter) then Some peer_a
      else peer_of rest glob_adapter
  end.

Definition _get_peer_adapter (self : CoreNetData) (glob_adapter : string)
    : option string :=
  peer_of (_bridges self) glob_adapter.

(** The two nested loops of [_get_device_from_globname]. *)
Fixpoint device_of (mappings : list (string * list (string * string)))
    (in_globname : string) : option (string * string) :=
  match mappings with
  | [] => None
  | (hostname, adapters) :: rest =>
      match local_name_of adapters in_globname with
      | Some loc_name => Some (hostname, loc_name)
      | None => device_of rest in_globname
      end
  end.

Definition _get_device_from_globname (self : CoreNetData)
    (in_globname : string) : option (string * string) :=
  device_of (_mappings self) in_globname.

(** The loop of [get_adapter_names] over the adapters of the source.  A
    hostname is a key of [_mappings], never [None]. *)
Fixpoint adapter_names_of (self : CoreNetData) (dst_device : string)
    (src_node_adapters : list (string * string))
    : option ((string * string) * (string * option string)) :=
  match src_node_adapters with
  | [] => None
  | (glob_name, loc_name) :: rest =>
      match _get_peer_adapter self glob_name with
      | None => adapter_names_of self dst_device rest
      | Some remote_global =>
          match _get_device_from_globname self remote_global with
          | None => adapter_names_of self dst_device rest
          | Some (remote_hostname, remote_local) =>
              if decide (remote_hostname ≠ dst_device) then
                adapter_names_of self dst_device rest
              else
                let remote_local :=
                  get_nodes_local_name self remote_hostname remote_global in
                Some ((glob_name, loc_name), (remote_global, remote_local))
          end
      end
  end.

Definition get_adapter_names (self : CoreNetData)
    (src_device dst_device : string)
    : option ((string * string) * (string * option string)) :=
  match dict_get (_mappings self) src_device with
  | None => None
  | Some src_node_adapters => adapter_names_of self dst_device src_node_adapters
  end.

(** The loop of [get_remote_peer]. *)
Fixpoint remote_peer_of (self : CoreNetData) (src_loc_intf : string)
    (src_node_adapters : list (string * string)) : option (string * string) :=
  match src_node_adapters with
  | [] => None
  | (glob_name, loc_name) :: rest =>
      if decide (loc_name ≠ src_loc_intf) then
        remote_peer_of self src_loc_intf rest
      else
        match _get_peer_adapter self glob_name with
        | None => remote_peer_of self src_loc_intf rest
        | Some remote_global =>
            match _get_device_from_globname self remote_global with
            | None => remote_peer_of self src_loc_intf rest
            | Some remote_data => Some remote_data
            end
        end
  end.

Definition get_remote_peer (self : CoreNetData) (src_name src_loc_intf : string)
    : option (string * string) :=
  match dict_get (_mappings self) src_name with
  | None => None
  | Some src_node_adapters => remote_peer_of self src_loc_intf src_node_adapters
  end.

(** [any(adapters)] on the two names of a bridge. *)
Definition any_name (adapters : string * string) : bool :=
  negb (bool_decide (adapters.1 = EmptyString)) ||
  negb (bool_decide (adapters.2 = EmptyString)).

(** The loop of [_validate] over [self._bridges.items()]; every [return]
    follows a [logging.error], and the value is what was logged. *)
Fixpoint validate_bridges (self : CoreNetData)
    (bridges : list (string * (string * string))) : list log_record :=
  match bridges with
  | [] => []
  | (bridge, adapters) :: rest =>
      if negb (any_name adapters) then
        [LogError "coredata::_validate(): %s bridge has no adapters!"]
      else
        let '(global_a, global_b) := adapters in
        let node_a := _get_device_from_globname self global_a in
        let node_b := _get_device_from_globname self global_b in
        match node_a, node_b with
        | None, _ =>
            [LogError "coredata::_validate(): No host having global adapter %s"]
        | _, None =>
            [LogError "coredata::_validate(): No host having global adapter %s"]
        | Some _, Some _ => validate_bridges self rest
        end
  end.

(** [_validate()] returns [None] on every path. *)
Definition _validate (self : CoreNetData) : list log_record :=
  validate_bridges self (_bridges self).

(** The topology description read by [load_data]: [data['links']] and
    [data['names']]. *)
Record topology : Set := {
  links : list (string * (string * string));
  names : list (string * list (string * string))
}.

(** [load_data(filename)], from the decoded content of the file. *)
Definition load_data (self : CoreNetData) (data : topology)
    : CoreNetData * list log_record :=
  let self := {| _bridges := links data; _mappings := names data;
                 valid := valid self |} in
  let log := _validate self in
  ({| _bridges := _bridges self; _mappings := _mappings self; valid := true |},
   log).

End CoreNetData.

(** ** [altoserver/alto/costproviders/pathloadcostprovider.py] *)
Module PathLoad.

(** A device object of the network map, by identity. *)
Definition node : Set := nat.

(** What the provider uses of the network map [altoserver.nm], whose module
    is outside the sources at hand: the attributes and load samples of the
    device objects, the out-edges of the graph with their parameter
    dictionaries, the CORE data and the path iterator. *)
Record NetworkMap (endpoint : Type) : Type := {
  name : node -> string;
  type : node -> string;
  get_adapter_tx_load : node -> option string -> option Z;
  get_adapter_rx_load : node -> option string -> option Z;
  get_out_edges : node -> list (node * node * gmap string Z);
  core_data : CoreNetData.CoreNetData;
  dev_to_dev_iterator : endpoint -> endpoint -> list node
}.
Arguments name {endpoint} _ _.
Arguments type {endpoint} _ _.
Arguments get_adapter_tx_load {endpoint} _ _ _.
Arguments get_adapter_rx_load {endpoint} _ _ _.
Arguments get_out_edges {endpoint} _ _.
Arguments core_data {endpoint} _.
Arguments dev_to_dev_iterator {endpoint} _ _ _.

(** The address parser [IPAddrParser], also outside the sources at hand. *)
Record IPAddrParser (endpoint : Type) : Type := {
  to_object : string -> endpoint;
  from_object : endpoint -> string
}.
Arguments to_object {endpoint} _ _.
Arguments from_object {endpoint} _ _.

Section Provider.
Context {endpoint : Type}.
Variable nm : NetworkMap endpoint.
Variable _ip_parser : IPAddrParser endpoint.

(** The loop of [get_link_capacity] over the out-edges of [from_node]. *)
Fixpoint capacity_of (from_node to_node : node)
    (edges : list (node * node * gmap string Z)) : result (option Z) :=
  match edges with
  | [] => Ret None
  | (a_node, b_node, params) :: rest =>
      if decide (a_node = from_node) then
        if decide (b_node = to_node) then Ret (params !! "capacity")
        else capacity_of from_node to_node rest
      else Raise AssertionError
  end.

Definition get_link_capacity (from_node to_node : node) : result (option Z) :=
  capacity_of from_node to_node (get_out_edges nm from_node).

(** [path[idx]] on the dictionary [{0: n0, 1: n1, ...}]. *)
Definition path_get (path : list node) (idx : nat) : result node :=
  match path !! idx with
  | Some n => Ret n
  | None => Raise KeyError
  end.

(** [max([0, x])] *)
Definition max0 (x : Z) : Z := Z.max 0 x.

(** [min(l)] *)
Definition min_list (l : list Z) : result Z :=
  match l with
  | [] => Raise ValueError
  | x :: l' => Ret (foldl Z.min x l')
  end.

(** The [while pairs_left:] loop, for a counter that is not negative; the
    value is [None] where the source returns [None], and the list
    [residual_bws] when the loop ends. *)
Fixpoint residual_bws_loop (path : list node) (idx_node_a idx_node_b : nat)
    (pairs_left : nat) (residual_bws : list Z) : result (option (list Z)) :=
  match pairs_left with
  | O => Ret (Some residual_bws)
  | S pairs_left' =>
      node_a ← path_get path idx_node_a;
      node_b ← path_get path idx_node_b;
      (* Get link's capacity *)
      cap ← get_link_capacity node_a node_b;
      match cap with
      | None => Ret None
      | Some cap_a_to_b =>
          if decide (type nm node_a = "user" ∧ type nm node_b = "user") then
            residual_bws_loop path (S idx_node_a) (S idx_node_b) pairs_left'
              (residual_bws ++ [cap_a_to_b])
          else
            (* Get adapter details *)
            match CoreNetData.get_adapter_names (core_data nm)
                    (name nm node_a) (name nm node_b) with
            | None => Ret None
            | Some ((node_a_global, node_a_local),
                    (node_b_global, node_b_local)) =>
                let residual :=
                  if decide (type nm node_b = "user") then
                    match get_adapter_tx_load nm node_a (Some node_a_local) with
                    | None => cap_a_to_b
                    | Some load_to_b => max0 (cap_a_to_b - load_to_b)
                    end
                  else
                    match get_adapter_rx_load nm node_b node_b_local with
                    | None => cap_a_to_b
                    | Some load_from_a => max0 (cap_a_to_b - load_from_a)
                    end in
                residual_bws_loop path (S idx_node_a) (S idx_node_b)
                  pairs_left' (residual_bws ++ [residual])
            end
      end
  end.

(** [get_residual_bw_for_path(path)].  On the empty path the counter starts
    at [-1], the loop is entered and [path[0]] raises. *)
Definition get_residual_bw_for_path (path : list node) : result (option Z) :=
  let pairs_left := Z.of_nat (length path) - 1 in
  if pairs_left <? 0 then
    _ ← path_get path 0; Raise KeyError
  else
    r ← residual_bws_loop path 0 1 (Z.to_nat pairs_left) [];
    match r with
    | None => Ret None
    | Some residual_bws => Some <$> min_list residual_bws
    end.

(** [any(d)] on a dictionary: some key is a non-empty string. *)
Definition any_key (d : gmap string Z) : bool :=
  bool_decide (Exists (fun k => k ≠ EmptyString) (elements (dom d))).

(** The loop over [dsts] for one source, building [this_src]. *)
Fixpoint cost_dsts (src : endpoint) (dsts : list endpoint)
    (this_src : gmap string Z) : result (gmap string Z) :=
  match dsts with
  | [] => Ret this_src
  | dst :: dsts' =>
      (* Get path *)
      let this_path := dev_to_dev_iterator nm src dst in
      (* Get residual BW *)
      rbw ← get_residual_bw_for_path this_path;
      match rbw with
      | None => cost_dsts src dsts' this_src
      | Some rbw =>
          cost_dsts src dsts' (<[from_object _ip_parser dst := rbw]> this_src)
      end
  end.

(** The loop over [srcs], building [costmap]. *)
Fixpoint cost_srcs (srcs dsts : list endpoint)
    (costmap : gmap string (gmap string Z))
    : result (gmap string (gmap string Z)) :=
  match srcs with
  | [] => Ret costmap
  | src :: srcs' =>
      this_src ← cost_dsts src dsts ∅;
      if any_key this_src then
        cost_srcs srcs' dsts (<[from_object _ip_parser src := this_src]> costmap)
      else cost_srcs srcs' dsts costmap
  end.

(** [get_cost(in_srcs, in_dsts)] *)
Definition get_cost (in_srcs in_dsts : list string)
    : result (gmap string (gmap string Z)) :=
  let srcs := to_object _ip_parser <$> in_srcs in
  let dsts := to_object _ip_parser <$> in_dsts in
  cost_srcs srcs dsts ∅.

End Provider.

End PathLoad.

(** ** Notions used to state the properties *)
Module Props.
Import CoreNetData.

(** Every global adapter name occurring in a bridge, in order. *)
Definition link_ends (bridges : list (string * (string * string)))
    : list string :=
  flat_map (fun b => [b.2.1; b.2.2]) bridges.

(** What [_parse_rt_line] logs for a column after the eleventh. *)
Definition too_many_tokens : log_record :=
  LogError "Unexpected number of RT line tokens!".

(** A continuation line has a space where the protocol code is. *)
Definition is_continuation (line : string) : Prop :=
  str_getitem line 0 = Ret " ".

(** The protocol code that [_process_quagga_rt] uses for a line. *)
Definition line_proto (c : NetHelpers.cache) (line : string)
    : result (option string) :=
  c0 ← str_getitem line 0;
  Ret (if decide (c0 = " ") then NetHelpers.last_proto c else Some c0).

(** The loop over the lines after the header, with the state it ends in. *)
Fixpoint run_lines (st : NetHelpers.cache * NetHelpers.fields)
    (lines : list string)
    : result (NetHelpers.cache * NetHelpers.fields * list NetHelpers.route) :=
  match lines with
  | [] => Ret (st, [])
  | line :: lines' =>
      '(st', r) ← NetHelpers.quagga_line st line;
      '(st'', rs) ← run_lines st' lines';
      Ret (st'', r :: rs)
  end.

(** The cached route is the route of a record. *)
Definition cache_of (c : NetHelpers.cache) (r : NetHelpers.route) : Prop :=
  NetHelpers.last_proto c = NetHelpers.protocol r ∧
  NetHelpers.last_subnet c = NetHelpers.subnet r ∧
  NetHelpers.last_ad c = NetHelpers.AD r ∧
  NetHelpers.last_rd c = NetHelpers.RD r.

(** The locals [subnet], [ad] and [rd] hold what the cache holds. *)
Definition fields_of_cache (st : NetHelpers.cache * NetHelpers.fields) : Prop :=
  NetHelpers.v_subnet st.2 = Some (NetHelpers.last_subnet st.1) ∧
  NetHelpers.v_ad st.2 = Some (NetHelpers.last_ad st.1) ∧
  NetHelpers.v_rd st.2 = Some (NetHelpers.last_rd st.1).

(** Two records describe the same route: protocol code, subnet, AD, RD. *)
Definition same_route (r' r : NetHelpers.route) : Prop :=
  NetHelpers.protocol r' = NetHelpers.protocol r ∧
  NetHelpers.subnet r' = NetHelpers.subnet r ∧
  NetHelpers.AD r' = NetHelpers.AD r ∧
  NetHelpers.RD r' = NetHelpers.RD r.

(** The consecutive device pairs of a path. *)
Definition segments (path : list PathLoad.node)
    : list (PathLoad.node * PathLoad.node) :=
  zip path (tail path).

Section Segments.
Context {endpoint : Type}.
Variable nm : PathLoad.NetworkMap endpoint.
Variable parser : PathLoad.IPAddrParser endpoint.

Definition user_to_user (a b : PathLoad.node) : Prop :=
  PathLoad.type nm a = "user" ∧ PathLoad.type nm b = "user".

Definition connecting_adapters (a b : PathLoad.node)
    : option ((string * string) * (string * option string)) :=
  CoreNetData.get_adapter_names (PathLoad.core_data nm)
    (PathLoad.name nm a) (PathLoad.name nm b).

(** The live load sample of a segment: none between two user devices;
    otherwise the transmit load of the sender when the receiver is a user
    device, and the receive load of the receiver when it is not. *)
Definition segment_load (a b : PathLoad.node) : option Z :=
  if decide (user_to_user a b) then None
  else
    match connecting_adapters a b with
    | None => None
    | Some ((_, a_local), (_, b_local)) =>
        if decide (PathLoad.type nm b = "user") then
          PathLoad.get_adapter_tx_load nm a (Some a_local)
        else PathLoad.get_adapter_rx_load nm b b_local
    end.

(** The residual of a segment: its raw capacity when there is no load
    sample, [max(0, capacity - load)] otherwise. *)
Definition segment_residual (seg : PathLoad.node * PathLoad.node) (cap : Z)
    : Z :=
  match segment_load seg.1 seg.2 with
  | None => cap
  | Some load => Z.max 0 (cap - load)
  end.

(** A segment with a known capacity and connecting adapters. *)
Definition known_segment (seg : PathLoad.node * PathLoad.node) (cap : Z)
    : Prop :=
  PathLoad.get_link_capacity nm seg.1 seg.2 = Ret (Some cap) ∧
  is_Some (connecting_adapters seg.1 seg.2).



(** The path and the result keys of a pair of the request. *)
Definition path_of (s d : string) : list PathLoad.node :=
  PathLoad.dev_to_dev_iterator nm
    (PathLoad.to_object parser s) (PathLoad.to_object parser d).

Definition key_of (s : string) : string :=
  PathLoad.from_object parser (PathLoad.to_object parser s).

End Segments.

(** [m] is the least element of [l]. *)
Definition is_minimum (m : Z) (l : list Z) : Prop :=
  m ∈ l ∧ ∀ x, x ∈ l → m ≤ x.

End Props.

(** ** Concrete inputs *)
Module Fixtures.
Import CoreNetData.

(** The four lines that precede the routes in [sh ip route]. *)
Definition quagga_header : list string :=
  ["Codes: K - kernel route, C - connected, S - static, R - RIP,";
   "       O - OSPF, I - IS-IS, B - BGP, A - Babel,";
   "       > - selected route, * - FIB route";
   ""].

(** A bridge [b1] between [veth1] and [veth2]; no host owns [veth2]. *)
Definition dangling_topology : topology :=
  {| links := [("b1", ("veth1", "veth2"))];
     names := [("n1", [("veth1", "eth0")])] |}.

(** Hosts [h1 - r1 - r2 - h2] in a line. *)
Definition line_topology : topology :=
  {| links := [("b1", ("g01", "g10")); ("b2", ("g12", "g21"));
               ("b3", ("g23", "g32"))];
     names := [("h1", [("g01", "eth0")]);
               ("r1", [("g10", "eth0"); ("g12", "eth1")]);
               ("r2", [("g21", "eth0"); ("g23", "eth1")]);
               ("h2", [("g32", "eth0")])] |}.

Definition line_core : CoreNetData := (load_data new line_topology).1.

(** A line of [/proc/net/route] from its columns. *)
Definition tab_join (cols : list string) : string :=
  String.concat (String "009" EmptyString) cols.

(** A kernel route line with a twelfth column. *)
Definition rt_line_12 : string :=
  tab_join ["eth0"; "0000A8C0"; "0100A8C0"; "0003"; "0"; "0"; "0";
            "00FFFFFF"; "0"; "0"; "0"; "7"].

Definition connected_line : string :=
  "C>* 10.0.0.0/24 is directly connected, eth0".

(** What [connected_line] parses to. *)
Definition connected_route : NetHelpers.route :=
  {| NetHelpers.protocol := Some "C"; NetHelpers.selected := true;
     NetHelpers.fib := true; NetHelpers.subnet := Some "10.0.0.0/24";
     NetHelpers.AD := None; NetHelpers.RD := None; NetHelpers.GW := None;
     NetHelpers.Int := "eth0" |}.

(** A connected route whose line lacks the word [is]. *)
Definition connected_line_no_is : string :=
  "C>* 10.0.1.0/24 directly connected, eth1".

(** An OSPF route, and a continuation line that has the shape of a route
    without next hop. *)
Definition ospf_line : string :=
  "O>* 10.0.4.0/24 [110/20] via 10.0.0.2, eth0, 00:10:11".

Definition via_continuation_line : string :=
  "  * via 10.0.1.2, eth1, 00:10:11".

Definition is_continuation_line : string :=
  " >* 10.9.0.0/16 [5/7] is directly connected, eth1".

(** The address parser of the examples: an address is its own object. *)
Definition text_parser : PathLoad.IPAddrParser string :=
  {| PathLoad.to_object s := s; PathLoad.from_object o := o |}.

Definition capacity (c : Z) : gmap string Z := {["capacity" := c]}.

(** The devices [0 = h1], [1 = r1], [2 = r2], [3 = h2] of [line_topology],
    with capacities 100, 50 and 100; [h1] has the address [10.0.0.1] and
    [h2] the address [10.0.3.1].  Device 4 is not linked to anything. *)
Definition line_net : PathLoad.NetworkMap string :=
  {| PathLoad.name n :=
       match n with
       | 0 => "h1" | 1 => "r1" | 2 => "r2" | 3 => "h2" | _ => "h9"
       end%nat;
     PathLoad.type n :=
       match n with 1 | 2 => "router" | _ => "user" end%nat;
     PathLoad.get_adapter_tx_load n l :=
       if decide (n = 2%nat ∧ l = Some "eth1") then Some 30 else None;
     PathLoad.get_adapter_rx_load n l :=
       if decide (n = 1%nat ∧ l = Some "eth0") then Some 10 else None;
     PathLoad.get_out_edges n :=
       match n with
       | 0 => [(0, 1, capacity 100)]
       | 1 => [(1, 0, capacity 100); (1, 2, capacity 50)]
       | 2 => [(2, 1, capacity 50); (2, 3, capacity 100)]
       | 3 => [(3, 2, capacity 100)]
       | _ => []
       end%nat;
     PathLoad.core_data := line_core;
     PathLoad.dev_to_dev_iterator src dst :=
       if decide (src = "10.0.0.1") then
         if decide (dst = "10.0.3.1") then [0; 1; 2; 3]%nat
         else if decide (dst = "10.0.0.1") then [0]%nat
         else [0; 1; 4]%nat
       else [3; 4]%nat |}.


(** The routers [r1] and [r2] of [line_topology] with a link of capacity
    10, where the receive load sampled on [r2] is negative. *)
Definition negative_load_net : PathLoad.NetworkMap string :=
  {| PathLoad.name n := match n with 1 => "r1" | _ => "r2" end%nat;
     PathLoad.type _ := "router";
     PathLoad.get_adapter_tx_load _ _ := None;
     PathLoad.get_adapter_rx_load _ _ := Some (-5);
     PathLoad.get_out_edges n :=
       match n with 1 => [(1, 2, capacity 10)] | _ => [] end%nat;
     PathLoad.core_data := line_core;
     PathLoad.dev_to_dev_iterator _ _ := [1; 2]%nat |}.

Definition ip_addr_line : string :=
  "2: eth0 inet 10.0.0.1/24 brd 10.0.0.255 scope global eth0\valid_lft 30sec preferred_lft 100sec".

Definition ip_addr_data : NetHelpers.addr_data :=
  {| NetHelpers.id := Some "2"; NetHelpers.name := "eth0";
     NetHelpers.family := "inet"; NetHelpers.address := "10.0.0.1/24";
     NetHelpers.brd := "10.0.0.255"; NetHelpers.scope := "global";
     NetHelpers.valid_left := Some 30; NetHelpers.preferred_left := Some 30 |}.

(** [ip_addr_line] with a preferred lifetime that never ends. *)
Definition ip_addr_line_preferred_forever : string :=
  "2: eth0 inet 10.0.0.1/24 brd 10.0.0.255 scope global eth0\valid_lft 30sec preferred_lft forever".

End Fixtures.

(** ** Further notions used to state the properties *)
Module Derived.

(** The line that is a single newline. *)
Definition newline : string := String "010" EmptyString.

(** The keys of the dictionary of [_parse_rt_line], by column. *)
Definition rt_keys : list string :=
  ["ifname"; "destination"; "gateway"; "flags"; "refcnt"; "use"; "metric";
   "mask"; "mtu"; "window"; "irtt"].

(** Two upper-case hexadecimal digits for a byte, as the kernel prints
    them. *)
Definition hex_digit (n : Z) : ascii :=
  ascii_of_N (Z.to_N (if n <? 10 then 48 + n else 55 + n)).

Definition hex_byte (b : Z) : string :=
  String (hex_digit (b / 16)) (String (hex_digit (b mod 16)) EmptyString).

(** The dotted-decimal text of four octets. *)
Definition dotted_quad (a b c d : Z) : string :=
  str_small a +:+ "." +:+ str_small b +:+ "." +:+ str_small c +:+ "." +:+
  str_small d.

(** How often a character occurs in a string. *)
Fixpoint count_char (c : ascii) (s : string) : nat :=
  match s with
  | EmptyString => 0%nat
  | String d s' => ((if Ascii.eqb d c then 1 else 0) + count_char c s')%nat
  end.

(** Two routes as [/proc/net/route] prints them, and a third line whose
    destination is not hexadecimal. *)
Definition rt_row_default : string :=
  Fixtures.tab_join ["eth0"; "00000000"; "0100A8C0"; "0003"; "0"; "0"; "0";
                     "00000000"; "0"; "0"; "0"].

Definition rt_row_local : string :=
  Fixtures.tab_join ["eth0"; "0000A8C0"; "00000000"; "0001"; "0"; "0"; "0";
                     "00FFFFFF"; "0"; "0"; "0"].

Definition rt_row_bad : string :=
  Fixtures.tab_join ["eth0"; "xyz"; "00000000"; "0001"].

Definition rt_header : string :=
  "Iface	Destination	Gateway 	Flags	RefCnt	Use	Metric	Mask		MTU	Window	IRTT".

(** Lines of [ip -o addr]: one without the backslash between the two
    blocks, and one whose valid lifetime is [forever] while the preferred
    lifetime is a number of seconds. *)
Definition ip_addr_line_no_backslash : string :=
  "2: eth0 inet 10.0.0.1/24 brd 10.0.0.255 scope global eth0".

Definition ip_addr_line_forever_valid : string :=
  "2: eth0 inet 10.0.0.1/24 brd 10.0.0.255 scope global eth0\valid_lft forever preferred_lft 100sec".

(** A state of the Quagga parser left by an OSPF route. *)
Definition state_after_ospf : NetHelpers.cache * NetHelpers.fields :=
  ({| NetHelpers.last_proto := Some "O";
      NetHelpers.last_subnet := Some "10.0.4.0/24";
      NetHelpers.last_ad := Some 110; NetHelpers.last_rd := Some 20;
      NetHelpers.cached := true |},
   {| NetHelpers.v_subnet := Some (Some "10.0.4.0/24");
      NetHelpers.v_ad := Some (Some 110); NetHelpers.v_rd := Some (Some 20);
      NetHelpers.v_gw := Some (Some "10.0.0.2");
      NetHelpers.v_adapter := Some "eth0" |}).

(** A static route without next hop. *)
Definition static_is_line : string :=
  "S>* 10.7.0.0/16 [1/0] is directly connected, eth2".

(** A bridge that [_validate] accepts: not both names empty, and each name
    owned by a host. *)
Definition bridge_ok (self : CoreNetData.CoreNetData)
    (bridge : string * (string * string)) : Prop :=
  (bridge.2.1 ≠ EmptyString ∨ bridge.2.2 ≠ EmptyString) ∧
  is_Some (CoreNetData._get_device_from_globname self bridge.2.1) ∧
  is_Some (CoreNetData._get_device_from_globname self bridge.2.2).

(** The error [_validate] logs for a bridge it does not accept: the one of
    [not any(adapters)] when both names are empty, the one of a name that no
    host owns otherwise. *)
Definition bridge_error (bridge : string * (string * string)) : log_record :=
  if decide (bridge.2.1 = EmptyString ∧ bridge.2.2 = EmptyString) then
    LogError "coredata::_validate(): %s bridge has no adapters!"
  else LogError "coredata::_validate(): No host having global adapter %s".

(** The hosts of [line_topology] with three bridges: a sound one, one with
    two empty names, and one from an adapter [g99] that no host owns. *)
Definition two_bad_bridges_core : CoreNetData.CoreNetData :=
  {| CoreNetData._bridges :=
       [("b1", ("g01", "g10")); ("b2", (EmptyString, EmptyString));
        ("b3", ("g99", "g21"))];
     CoreNetData._mappings := CoreNetData.names Fixtures.line_topology;
     CoreNetData.valid := false |}.

(** An adapter of [src_device] whose bridge leads to an adapter owned by
    [dst_device]. *)
Definition links_to (self : CoreNetData.CoreNetData)
    (src_device dst_device : string)
    (glob_name loc_name remote_global remote_local : string) : Prop :=
  ∃ adapters,
    CoreNetData.dict_get (CoreNetData._mappings self) src_device =
      Some adapters ∧
    (glob_name, loc_name) ∈ adapters ∧
    CoreNetData._get_peer_adapter self glob_name = Some remote_global ∧
    CoreNetData._get_device_from_globname self remote_global =
      Some (dst_device, remote_local).

Section SegmentView.
Context {endpoint : Type}.
Variable nm : PathLoad.NetworkMap endpoint.

(** What one turn of the loop of [get_residual_bw_for_path] makes of the
    segment from [seg.1] to [seg.2]: an exception, [None] where the source
    returns [None], or the residual that is appended. *)
Definition segment_outcome (seg : PathLoad.node * PathLoad.node)
    : result (option Z) :=
  cap ← PathLoad.get_link_capacity nm seg.1 seg.2;
  Ret (match cap with
       | None => None
       | Some cap_a_to_b =>
           if decide (Props.user_to_user nm seg.1 seg.2) then Some cap_a_to_b
           else
             match Props.connecting_adapters nm seg.1 seg.2 with
             | None => None
             | Some _ => Some (Props.segment_residual nm seg cap_a_to_b)
             end
       end).

(** The loop, over the segments still to come. *)
Fixpoint residuals_of (segs : list (PathLoad.node * PathLoad.node))
    (residual_bws : list Z) : result (option (list Z)) :=
  match segs with
  | [] => Ret (Some residual_bws)
  | seg :: segs' =>
      r ← segment_outcome seg;
      match r with
      | None => Ret None
      | Some residual => residuals_of segs' (residual_bws ++ [residual])
      end
  end.

End SegmentView.

(** Two outcomes of the same kind, the second with residuals that are not
    smaller. *)
Definition outcome_le {A} (le : A → A → Prop) (r r' : result (option A))
    : Prop :=
  match r, r' with
  | Ret (Some x), Ret (Some x') => le x x'
  | Ret None, Ret None => True
  | Raise e, Raise e' => e = e'
  | _, _ => False
  end.

(** Two network maps with the same devices, edges and CORE data. *)
Definition same_topology {endpoint}
    (nm nm' : PathLoad.NetworkMap endpoint) : Prop :=
  (∀ n, PathLoad.name nm n = PathLoad.name nm' n) ∧
  (∀ n, PathLoad.type nm n = PathLoad.type nm' n) ∧
  (∀ n, PathLoad.get_out_edges nm n = PathLoad.get_out_edges nm' n) ∧
  PathLoad.core_data nm = PathLoad.core_data nm'.

(** A load sample that is present on both sides and not larger on the
    left, or absent on both sides. *)
Definition lower_load (load' load : option Z) : Prop :=
  match load', load with
  | Some l', Some l => l' ≤ l
  | None, None => True
  | _, _ => False
  end.

Definition loads_lowered {endpoint}
    (nm' nm : PathLoad.NetworkMap endpoint) : Prop :=
  ∀ n l,
    lower_load (PathLoad.get_adapter_tx_load nm' n l)
               (PathLoad.get_adapter_tx_load nm n l) ∧
    lower_load (PathLoad.get_adapter_rx_load nm' n l)
               (PathLoad.get_adapter_rx_load nm n l).

(** [line_net] with the loads of [r1] and [r2] raised by 20. *)
Definition loaded_line_net : PathLoad.NetworkMap string :=
  {| PathLoad.name := PathLoad.name Fixtures.line_net;
     PathLoad.type := PathLoad.type Fixtures.line_net;
     PathLoad.get_adapter_tx_load n l :=
       if decide (n = 2%nat ∧ l = Some "eth1") then Some 50 else None;
     PathLoad.get_adapter_rx_load n l :=
       if decide (n = 1%nat ∧ l = Some "eth0") then Some 30 else None;
     PathLoad.get_out_edges := PathLoad.get_out_edges Fixtures.line_net;
     PathLoad.core_data := PathLoad.core_data Fixtures.line_net;
     PathLoad.dev_to_dev_iterator :=
       PathLoad.dev_to_dev_iterator Fixtures.line_net |}.

(** [line_net] reached through the one-letter addresses [a] (for [h1]) and
    [b] (for [h2]). *)
Definition lettered_line_net : PathLoad.NetworkMap string :=
  {| PathLoad.name := PathLoad.name Fixtures.line_net;
     PathLoad.type := PathLoad.type Fixtures.line_net;
     PathLoad.get_adapter_tx_load :=
       PathLoad.get_adapter_tx_load Fixtures.line_net;
     PathLoad.get_adapter_rx_load :=
       PathLoad.get_adapter_rx_load Fixtures.line_net;
     PathLoad.get_out_edges := PathLoad.get_out_edges Fixtures.line_net;
     PathLoad.core_data := PathLoad.core_data Fixtures.line_net;
     PathLoad.dev_to_dev_iterator src dst :=
       if decide (src = "a") then
         if decide (dst = "b") then [0; 1; 2; 3]%nat else [0; 1; 4]%nat
       else [3; 4]%nat |}.

End Derived.

(** * Properties *)

(** ** Topology data *)
Section CoreNetDataFacts.
Import CoreNetData Props.

Lemma load_data_valid self data : valid (load_data self data).1 = true.
Proof. reflexivity. Qed.

Lemma load_data_fields self data :
  _bridges (load_data self data).1 = links data ∧
  _mappings (load_data self data).1 = names data.
Proof. done. Qed.

(** C1.  Loading the description whose only bridge joins [veth1] and
    [veth2], where no host owns [veth2]: [_validate] logs that no host has
    the adapter and returns, and [load_data] sets [valid] to [True] all the
    same, so the topology with the dangling link is exposed as valid. *)
Theorem load_data_dangling_link_is_valid :
  let '(self, log) := load_data new Fixtures.dangling_topology in
  _get_device_from_globname self "veth2" = None ∧
  log = [LogError "coredata::_validate(): No host having global adapter %s"] ∧
  valid self = true.
Proof. by vm_compute. Qed.

Lemma peer_of_absent bridges g :
  g ∉ link_ends bridges → peer_of bridges g = None.
Proof.
  induction bridges as [|[n [a b]] bridges IH]; simpl; [done|].
  intros Hg. rewrite !not_elem_of_cons in Hg. destruct Hg as (Ha & Hb & Hg).
  rewrite !decide_False by done. by apply IH.
Qed.

Lemma peer_of_present bridges n a b :
  NoDup (link_ends bridges) → (n, (a, b)) ∈ bridges →
  peer_of bridges a = Some b ∧ peer_of bridges b = Some a.
Proof.
  induction bridges as [|[n' [a' b']] bridges IH]; simpl.
  { intros _ Hin. by apply elem_of_nil in Hin. }
  intros Hnd Hin.
  apply NoDup_cons in Hnd as [Ha' Hnd]. apply NoDup_cons in Hnd as [Hb' Hnd].
  apply not_elem_of_cons in Ha' as [Hab Ha'].
  apply elem_of_cons in Hin as [Heq|Hin].
  - injection Heq as -> -> ->. rewrite decide_True by done.
    rewrite decide_False by done. by rewrite decide_True.
  - assert (a ∈ link_ends bridges ∧ b ∈ link_ends bridges) as [Ha Hb].
    { unfold link_ends. rewrite !list_elem_of_In, !in_flat_map.
      split; exists (n, (a, b)); (split; [by apply list_elem_of_In | simpl; auto]). }
    rewrite !decide_False by (intros ->; done).
    by apply IH.
Qed.

(** C6.  When the global adapter names are unique across all bridges, the
    peer lookup is symmetric on every bridge, [_get_peer_adapter(a)] is [b]
    and [_get_peer_adapter(b)] is [a]; and it returns [None] for a name that
    occurs in no bridge. *)
Theorem get_peer_adapter_symmetric self :
  NoDup (link_ends (_bridges self)) →
  (∀ n a b, (n, (a, b)) ∈ _bridges self →
     _get_peer_adapter self a = Some b ∧ _get_peer_adapter self b = Some a) ∧
  (∀ g, g ∉ link_ends (_bridges self) → _get_peer_adapter self g = None).
Proof.
  intros Hnd. split.
  - intros n a b Hin. by apply (peer_of_present _ n).
  - intros g Hg. by apply peer_of_absent.
Qed.

Lemma get_peer_adapter_symmetric_witness :
  NoDup (link_ends (_bridges Fixtures.line_core)) ∧
  (_get_peer_adapter Fixtures.line_core "g12" = Some "g21" ∧
   _get_peer_adapter Fixtures.line_core "g21" = Some "g12") ∧
  _get_peer_adapter Fixtures.line_core "eth0" = None.
Proof.
  assert (NoDup (link_ends (_bridges Fixtures.line_core))) as Hnd.
  { apply (bool_decide_unpack _). vm_compute. exact I. }
  split; [exact Hnd|].
  destruct (get_peer_adapter_symmetric Fixtures.line_core Hnd) as [Hsym Habs].
  split.
  - apply (Hsym "b2"). apply (bool_decide_unpack _). vm_compute. exact I.
  - apply Habs. apply (bool_decide_unpack _). vm_compute. exact I.
Defined.

End CoreNetDataFacts.

(** ** Results of fallible code *)
Section ResultFacts.

Lemma bind_Ret {A B} (m : result A) (f : A → result B) b :
  m ≫= f = Ret b ↔ ∃ a, m = Ret a ∧ f a = Ret b.
Proof.
  destruct m as [a|e]; simpl; split.
  - intros H. by exists a.
  - by intros (a' & [= <-] & H).
  - done.
  - by intros (a' & [=] & _).
Qed.

End ResultFacts.

(** Split a hypothesis [m ≫= f = Ret b] into its two steps. *)
Ltac inv_bind H :=
  let a := fresh "a" in
  let Ha := fresh "H" a in
  apply bind_Ret in H as (a & Ha & H).

Tactic Notation "step_bind" hyp(H) "as" simple_intropattern(a) ident(Ha) :=
  apply bind_Ret in H as (a & Ha & H).

(** ** Kernel routing table *)
Section KernelRouteFacts.
Import NetHelpers Props.

Lemma rt_tokens_app order index words1 words2 st :
  rt_tokens order index (words1 ++ words2) st =
  rt_tokens order index words1 st ≫=
    rt_tokens order (index + length words1) words2.
Proof.
  revert index st. induction words1 as [|w words1 IH]; intros index st; simpl.
  - by rewrite Nat.add_0_r.
  - destruct (rt_token order index w st) as [st'|e]; simpl; [|done].
    rewrite IH. by replace (S index + length words1)%nat
      with (index + S (length words1))%nat by lia.
Qed.

Lemma rt_tokens_extra order index extra rt_line log :
  (11 ≤ index)%nat →
  rt_tokens order index extra (rt_line, log) =
  Ret (rt_line, log ++ replicate (length extra) too_many_tokens).
Proof.
  revert index log. induction extra as [|w extra IH]; intros index log Hi.
  - simpl. by rewrite app_nil_r.
  - do 11 (destruct index as [|index]; [lia|]). simpl.
    rewrite IH by lia. by rewrite <- app_assoc.
Qed.

Lemma rt_token_log order index word rt_line log rt_line' log' :
  (index < 11)%nat →
  rt_token order index word (rt_line, log) = Ret (rt_line', log') →
  log' = log.
Proof.
  intros Hi H.
  do 11 (destruct index as [|index];
         [simpl in H;
          first [ by injection H as _ <- | inv_bind H; by injection H as _ <- ]
         |]).
  lia.
Qed.

Lemma rt_tokens_log order index words rt_line log rt_line' log' :
  (index + length words ≤ 11)%nat →
  rt_tokens order index words (rt_line, log) = Ret (rt_line', log') →
  log' = log.
Proof.
  revert index rt_line log.
  induction words as [|w words IH]; intros index rt_line log Hi H; simpl in *.
  - by injection H as _ <-.
  - inv_bind H. destruct a as [m l].
    apply rt_token_log in Ha as ->; [|lia].
    apply (IH (S index) m); [lia|done].
Qed.

(** C2, as the code has it.  A line with more than 11 tab-separated columns
    is not rejected for its column count: the first 11 columns are decoded
    as on any line (only their decoders can raise), every further column
    adds one error record to the log and is dropped, and the dictionary
    returned is the one built from the first 11 columns. *)
Theorem parse_rt_line_extra_columns_logged order str_line cols extra :
  split "009" str_line = cols ++ extra →
  length cols = 11%nat →
  _parse_rt_line order str_line =
    '(rt_line, _) ← rt_tokens order 0 cols (∅, []);
    Ret (rt_line, replicate (length extra) too_many_tokens).
Proof.
  intros Hsplit Hlen. unfold _parse_rt_line.
  rewrite Hsplit, rt_tokens_app.
  destruct (rt_tokens order 0 cols (∅, [])) as [[m l]|e] eqn:Hcols; [|done].
  simpl. apply rt_tokens_log in Hcols as ->; [|lia].
  by rewrite rt_tokens_extra by lia.
Qed.

Lemma parse_rt_line_extra_columns_logged_witness :
  _parse_rt_line little Fixtures.rt_line_12 =
    Ret (list_to_map
           [("ifname", VStr "eth0"); ("destination", VStr "192.168.0.0");
            ("gateway", VStr "192.168.0.1"); ("flags", VFlags ["U"; "G"]);
            ("refcnt", VInt 0); ("use", VInt 0); ("metric", VInt 0);
            ("mask", VStr "255.255.255.0"); ("mtu", VInt 0);
            ("window", VInt 0); ("irtt", VInt 0)],
         [too_many_tokens]).
Proof.
  rewrite (parse_rt_line_extra_columns_logged little Fixtures.rt_line_12
             ["eth0"; "0000A8C0"; "0100A8C0"; "0003"; "0"; "0"; "0";
              "00FFFFFF"; "0"; "0"; "0"] ["7"]).
  - vm_compute. reflexivity.
  - vm_compute. reflexivity.
  - reflexivity.
Defined.

(** C2 does not hold as the specification states it: a line of 12 columns is parsed without an
    exception. *)
Lemma parse_rt_line_12_columns_returns :
  length (split "009" Fixtures.rt_line_12) = 12%nat ∧
  ¬ raises (_parse_rt_line little Fixtures.rt_line_12) ∧
  ¬ raises (_parse_rt_line big Fixtures.rt_line_12).
Proof. vm_compute. tauto. Qed.

End KernelRouteFacts.

(** ** Interface addresses *)
Section IpAddrFacts.
Import NetHelpers.

(** C9.  Whenever a line is parsed, the second block has tokens at index 1
    and 3, and the token at index 3 is only compared with ['forever'].  When
    it is ['forever'], [preferred_left] is -1, whatever the token at index 1
    is.  When it is anything else, the token at index 1 is not ['forever'],
    the number stored under [preferred_left] is the integer read from the
    token at index 1, the token of [valid_left], and the two fields are
    equal. *)
Theorem preferred_left_reads_valid_left_token line data :
  _parse_ip_addr_single_line line = Ret data →
  ∃ block1 block2 t1 t3,
    split "\" line = [block1; block2] ∧
    getitem (split " " block2) 1 = Ret t1 ∧
    getitem (split " " block2) 3 = Ret t3 ∧
    (t3 = "forever" → preferred_left data = Some (-1)) ∧
    (t3 ≠ "forever" →
       t1 ≠ "forever" ∧
       Some <$> int (strip "sec" t1) = Ret (preferred_left data) ∧
       preferred_left data = valid_left data).
Proof.
  unfold _parse_ip_addr_single_line. intros H.
  step_bind H as [block1 block2] Hsplit.
  step_bind H as t0 Ht0. step_bind H as d_name Hname.
  step_bind H as d_family Hfamily. step_bind H as d_address Haddress.
  step_bind H as [d_brd scope_val_id] Hbrd. step_bind H as d_scope Hscope.
  step_bind H as t1 Ht1. step_bind H as d_valid_left Hvalid.
  step_bind H as t3 Ht3. step_bind H as d_preferred_left Hpref.
  injection H as <-. simpl.
  exists block1, block2, t1, t3.
  assert (split "\" line = [block1; block2]) as Hline.
  { destruct (split "\" line) as [|b1 [|b2 [|]]]; try done.
    by injection Hsplit as -> ->. }
  split; [done|]. split; [done|]. split; [done|]. split.
  - intros ->. rewrite decide_True in Hpref by done. by injection Hpref as <-.
  - intros Ht3ne. rewrite decide_False in Hpref by done.
    step_bind Hpref as t1' Ht1'.
    rewrite Ht1 in Ht1'. injection Ht1' as <-.
    assert (t1 ≠ "forever") as Ht1ne.
    { intros ->. vm_compute in Hpref. discriminate Hpref. }
    split; [done|]. split; [by rewrite Hpref|].
    rewrite decide_False in Hvalid by done.
    step_bind Hvalid as t1'' Ht1''. congruence.
Qed.

Lemma preferred_left_reads_valid_left_token_witness :
  _parse_ip_addr_single_line Fixtures.ip_addr_line = Ret Fixtures.ip_addr_data ∧
  ∃ block1 block2 t1 t3,
    split "\" Fixtures.ip_addr_line = [block1; block2] ∧
    getitem (split " " block2) 1 = Ret t1 ∧
    getitem (split " " block2) 3 = Ret t3 ∧
    (t3 = "forever" → preferred_left Fixtures.ip_addr_data = Some (-1)) ∧
    (t3 ≠ "forever" →
       t1 ≠ "forever" ∧
       Some <$> int (strip "sec" t1) =
         Ret (preferred_left Fixtures.ip_addr_data) ∧
       preferred_left Fixtures.ip_addr_data =
       valid_left Fixtures.ip_addr_data).
Proof.
  assert (_parse_ip_addr_single_line Fixtures.ip_addr_line =
          Ret Fixtures.ip_addr_data) as Hparse by (vm_compute; reflexivity).
  split; [exact Hparse|].
  exact (preferred_left_reads_valid_left_token _ _ Hparse).
Defined.

(** C9 does not hold as the specification states it: the line
    [... valid_lft 30sec preferred_lft forever] is parsed, the token at
    index 1 of its second block is [30sec] and reads as 30, which is what
    [valid_left] holds, yet [preferred_left] is -1, taken from the token at
    index 3.  The same line with [100sec] at index 3 gives 30. *)
Lemma preferred_left_forever_is_not_the_valid_left_token :
  ∃ block1 block2 data,
    split "\" Fixtures.ip_addr_line_preferred_forever = [block1; block2] ∧
    getitem (split " " block2) 1 = Ret "30sec" ∧
    getitem (split " " block2) 3 = Ret "forever" ∧
    int (strip "sec" "30sec") = Ret 30 ∧
    _parse_ip_addr_single_line Fixtures.ip_addr_line_preferred_forever =
      Ret data ∧
    valid_left data = Some 30 ∧
    preferred_left data = Some (-1) ∧
    preferred_left data ≠ valid_left data ∧
    (preferred_left <$> _parse_ip_addr_single_line Fixtures.ip_addr_line) =
      Ret (Some 30).
Proof.
  eexists _, _, _. split; [vm_compute; reflexivity|].
  split; [vm_compute; reflexivity|]. split; [vm_compute; reflexivity|].
  split; [vm_compute; reflexivity|]. split; [vm_compute; reflexivity|].
  split; [reflexivity|]. split; [reflexivity|]. split; [discriminate|].
  vm_compute. reflexivity.
Qed.

End IpAddrFacts.

(** ** Quagga routing table *)
Section QuaggaFacts.
Import NetHelpers Props.

(** C8.  After any four header lines, the line
    [C>* 10.0.0.0/24 is directly connected, eth0] gives one record:
    protocol [C], selected and FIB set, subnet [10.0.0.0/24], interface
    [eth0], no gateway, no AD and no RD. *)
Theorem connected_line_record h0 h1 h2 h3 :
  _process_quagga_rt [h0; h1; h2; h3; Fixtures.connected_line] =
  Ret [{| protocol := Some "C"; selected := true; fib := true;
          subnet := Some "10.0.0.0/24"; AD := None; RD := None; GW := None;
          Int := "eth0" |}].
Proof. vm_compute. reflexivity. Qed.

(** A routed line with neither [via] nor [is] raises. *)
Lemma routed_line_without_anchor_raises st line proto :
  (3 ≤ String.length line)%nat →
  line_proto st.1 line = Ret proto → proto ≠ Some "C" →
  "via" ∉ split " " line → "is" ∉ split " " line →
  quagga_line st line = Raise NotImplementedError.
Proof.
  intros Hlen Hproto HC Hvia His. unfold quagga_line.
  destruct line as [|c0 [|c1 [|c2 line]]]; simpl in Hlen; try lia.
  unfold line_proto in Hproto. simpl in Hproto. injection Hproto as Hproto.
  change (str_getitem (String c0 (String c1 (String c2 line))) 0)
    with (Ret (String c0 EmptyString) : result string).
  change (str_getitem (String c0 (String c1 (String c2 line))) 1)
    with (Ret (String c1 EmptyString) : result string).
  change (str_getitem (String c0 (String c1 (String c2 line))) 2)
    with (Ret (String c2 EmptyString) : result string).
  cbn [mbind result_bind].
  destruct (decide (String c0 EmptyString = " ")) as [Hc|Hc];
    cbn [mbind result_bind]; subst proto;
    rewrite (decide_False (P := _ = Some "C")) by done;
    rewrite (decide_False (P := "via" ∈ _)) by done;
    by rewrite (decide_False (P := "is" ∈ _)) by done.
Qed.

Lemma connected_loop_without_is tokens rest num st :
  "is" ∉ rest → connected_loop tokens rest num st = Ret st.
Proof.
  revert num. induction rest as [|token rest IH]; intros num Hnot; [done|].
  apply not_elem_of_cons in Hnot as [Hne Hnot]. simpl.
  rewrite decide_False by done. by apply IH.
Qed.

(** A line under the code [C] without [is] assigns none of the locals: the
    record is made of what they held before the line. *)
Lemma connected_line_without_is_keeps_fields st line :
  (3 ≤ String.length line)%nat →
  line_proto st.1 line = Ret (Some "C") →
  "is" ∉ split " " line →
  ∃ c sel fb,
    quagga_line st line =
      subnet ← load (v_subnet st.2);
      ad ← load (v_ad st.2);
      rd ← load (v_rd st.2);
      gw ← load (v_gw st.2);
      adapter ← load (v_adapter st.2);
      Ret (c, st.2,
           {| protocol := Some "C"; selected := sel; fib := fb;
              subnet := subnet; AD := ad; RD := rd; GW := gw;
              Int := adapter |}).
Proof.
  intros Hlen Hproto His. unfold quagga_line.
  destruct line as [|c0 [|c1 [|c2 line]]]; simpl in Hlen; try lia.
  unfold line_proto in Hproto. simpl in Hproto. injection Hproto as Hproto.
  change (str_getitem (String c0 (String c1 (String c2 line))) 0)
    with (Ret (String c0 EmptyString) : result string).
  change (str_getitem (String c0 (String c1 (String c2 line))) 1)
    with (Ret (String c1 EmptyString) : result string).
  change (str_getitem (String c0 (String c1 (String c2 line))) 2)
    with (Ret (String c2 EmptyString) : result string).
  cbn [mbind result_bind].
  destruct (decide (String c0 EmptyString = " ")) as [Hc|Hc];
    cbn [mbind result_bind]; rewrite Hproto;
    rewrite (decide_True (P := Some "C" = Some "C")) by done;
    rewrite connected_loop_without_is by done;
    cbn [mbind result_bind fst snd]; by eexists _, _, _.
Qed.

(** C4.  After the connected route [10.0.0.0/24] on [eth0], the line
    [C>* 10.0.1.0/24 directly connected, eth1] has the code [C] and no
    token [is], so it has none of the three shapes; the parser raises
    nothing and appends a second record that repeats the subnet and the
    interface of the line before it.  As the first route of the table the
    same line ends the parse on an unbound local variable. *)
Theorem connected_line_without_is_repeats_previous :
  line_proto initial_state.1 Fixtures.connected_line_no_is = Ret (Some "C") ∧
  ("is" ∉ split " " Fixtures.connected_line_no_is) ∧
  _process_quagga_rt
    (Fixtures.quagga_header ++
     [Fixtures.connected_line; Fixtures.connected_line_no_is]) =
  Ret [Fixtures.connected_route; Fixtures.connected_route] ∧
  _process_quagga_rt
    (Fixtures.quagga_header ++ [Fixtures.connected_line_no_is]) =
  Raise UnboundLocalError.
Proof.
  split; [done|]. split; [|split; vm_compute; reflexivity].
  apply (bool_decide_unpack _). by vm_compute.
Qed.

Lemma quagga_lines_header st hdr lines out :
  length hdr = 4%nat →
  quagga_lines st 0 (hdr ++ lines) out = quagga_lines st 4 lines out.
Proof.
  intros Hlen. destruct hdr as [|h0 [|h1 [|h2 [|h3 [|]]]]]; try done.
Qed.

Lemma quagga_lines_run st lineno lines out :
  (4 ≤ lineno)%nat →
  quagga_lines st lineno lines out =
  '(_, rs) ← run_lines st lines; Ret (out ++ rs).
Proof.
  revert st lineno out.
  induction lines as [|line lines IH]; intros st lineno out Hn; simpl.
  - by rewrite app_nil_r.
  - rewrite decide_False by (rewrite !elem_of_cons, elem_of_nil; lia).
    destruct (quagga_line st line) as [[st' r]|e]; simpl; [|done].
    rewrite IH by lia.
    destruct (run_lines st' lines) as [[st'' rs]|e]; simpl; [|done].
    by rewrite <- app_assoc.
Qed.

Lemma process_quagga_rt_run hdr lines out :
  length hdr = 4%nat →
  _process_quagga_rt (hdr ++ lines) = Ret out →
  ∃ st, run_lines initial_state lines = Ret (st, out).
Proof.
  intros Hlen. unfold _process_quagga_rt.
  rewrite quagga_lines_header, quagga_lines_run by done.
  destruct (run_lines initial_state lines) as [[st rs]|e]; simpl; [|done].
  intros [= <-]. by exists st.
Qed.

Lemma run_lines_app st lines1 lines2 st2 rs :
  run_lines st (lines1 ++ lines2) = Ret (st2, rs) →
  ∃ st1 rs1 rs2,
    run_lines st lines1 = Ret (st1, rs1) ∧
    run_lines st1 lines2 = Ret (st2, rs2) ∧ rs = rs1 ++ rs2.
Proof.
  revert st rs. induction lines1 as [|line lines1 IH]; intros st rs H; simpl in *.
  - by exists st, [], rs.
  - step_bind H as [st' r] Hline. step_bind H as [st'' rs'] Hrest.
    injection H as <- <-.
    destruct (IH _ _ Hrest) as (st1 & rs1 & rs2 & H1 & H2 & ->).
    exists st1, (r :: rs1), rs2.
    split_and!; [|done..]. simpl. rewrite Hline. simpl. by rewrite H1.
Qed.

Lemma run_lines_length st lines st' rs :
  run_lines st lines = Ret (st', rs) → length rs = length lines.
Proof.
  revert st rs. induction lines as [|line lines IH]; intros st rs H; simpl in *.
  - by injection H as _ <-.
  - step_bind H as [st1 r] Hline. step_bind H as [st2 rs'] Hrest.
    injection H as <- <-. simpl. f_equal. by eapply IH.
Qed.

Lemma via_loop_fresh tokens rest num st st' :
  "via" ∈ rest → cached st.1 = false →
  via_loop tokens rest num st = Ret st' →
  fields_of_cache st' ∧ last_proto st'.1 = last_proto st.1.
Proof.
  revert num. induction rest as [|token rest IH]; intros num Hin Hc H.
  { by apply elem_of_nil in Hin. }
  simpl in H. destruct (decide (token = "via")) as [->|Hne].
  - rewrite Hc in H. step_bind H as [[[c sn] ad] rd] Hparse.
    step_bind Hparse as sn' Hsn. step_bind Hparse as [ad' rd'] Hadrd.
    injection Hparse as <- <- <- <-.
    step_bind H as t1 Ht1. step_bind H as t2 Ht2. by injection H as <-.
  - apply elem_of_cons in Hin as [?|Hin]; [done|]. by eapply IH.
Qed.

Lemma via_loop_cached tokens rest num st st' :
  "via" ∈ rest → cached st.1 = true →
  via_loop tokens rest num st = Ret st' →
  st'.1 = st.1 ∧ fields_of_cache st'.
Proof.
  revert num. induction rest as [|token rest IH]; intros num Hin Hc H.
  { by apply elem_of_nil in Hin. }
  simpl in H. destruct (decide (token = "via")) as [->|Hne].
  - rewrite Hc in H. simpl in H.
    step_bind H as t1 Ht1. step_bind H as t2 Ht2. by injection H as <-.
  - apply elem_of_cons in Hin as [?|Hin]; [done|]. by eapply IH.
Qed.

Lemma is_loop_found tokens rest num st st' :
  "is" ∈ rest ∨ fields_of_cache st →
  is_loop tokens rest num st = Ret st' →
  fields_of_cache st' ∧ last_proto st'.1 = last_proto st.1.
Proof.
  revert num st. induction rest as [|token rest IH]; intros num st Hin H.
  { destruct Hin as [Hin|Hst]; [by apply elem_of_nil in Hin|].
    by injection H as <-. }
  simpl in H. destruct (decide (token = "is")) as [->|Hne].
  - step_bind H as sn Hsn. step_bind H as [ad rd] Hadrd.
    step_bind H as t3 Ht3.
    apply IH in H as [Hf Hp]; [|by right]. done.
  - apply IH in H; [done|].
    destruct Hin as [Hin|Hst]; [|by right].
    apply elem_of_cons in Hin as [?|Hin]; [done|by left].
Qed.

(** A line with a protocol code other than [C]: the record it gives is
    the route left in the cache. *)
Lemma quagga_line_new_route st line st' r :
  quagga_line st line = Ret (st', r) →
  ¬ is_continuation line → str_getitem line 0 ≠ Ret "C" →
  cache_of st'.1 r ∧ protocol r ≠ Some "C".
Proof.
  unfold quagga_line, is_continuation. intros H Hcont HC.
  step_bind H as c0 Hc0. rewrite Hc0 in Hcont, HC.
  destruct (decide (c0 = " ")) as [->|Hsp]; [done|].
  step_bind H as c1 Hc1. step_bind H as c2 Hc2. step_bind H as st1 Hbranch.
  step_bind H as sn Hsn. step_bind H as ad Had. step_bind H as rd Hrd.
  step_bind H as gw Hgw. step_bind H as ifc Hifc. injection H as <- <-.
  rewrite decide_False in Hbranch by congruence.
  assert (fields_of_cache st1 ∧ last_proto st1.1 = Some c0)
    as [(Hfs & Hfa & Hfr) Hp].
  { destruct (decide ("via" ∈ split " " line)) as [Hvia|Hvia].
    - by apply via_loop_fresh in Hbranch.
    - destruct (decide ("is" ∈ split " " line)) as [His|His]; [|done].
      apply is_loop_found in Hbranch; [done|by left]. }
  rewrite Hfs in Hsn. rewrite Hfa in Had. rewrite Hfr in Hrd.
  injection Hsn as <-. injection Had as <-. injection Hrd as <-.
  split; [done|]. simpl. congruence.
Qed.

(** A continuation line with [via], under a protocol code other than [C]:
    the cached route is kept, and the record repeats it. *)
Lemma quagga_line_via_continuation st line st' r r0 :
  quagga_line st line = Ret (st', r) →
  is_continuation line → "via" ∈ split " " line →
  cache_of st.1 r0 → protocol r0 ≠ Some "C" →
  cache_of st'.1 r0 ∧ same_route r r0.
Proof.
  unfold quagga_line, is_continuation.
  intros H Hcont Hvia (Hp0 & Hs0 & Ha0 & Hr0) HC.
  rewrite Hcont in H. simpl in H.
  step_bind H as c1 Hc1. step_bind H as c2 Hc2. step_bind H as st1 Hbranch.
  step_bind H as sn Hsn. step_bind H as ad Had. step_bind H as rd Hrd.
  step_bind H as gw Hgw. step_bind H as ifc Hifc. injection H as <- <-.
  rewrite decide_False in Hbranch by congruence.
  rewrite decide_True in Hbranch by done.
  apply via_loop_cached in Hbranch as [Hc (Hfs & Hfa & Hfr)]; [|done..].
  rewrite Hfs in Hsn. rewrite Hfa in Had. rewrite Hfr in Hrd.
  injection Hsn as <-. injection Had as <-. injection Hrd as <-.
  rewrite Hc. simpl. by repeat split.
Qed.

Lemma run_lines_via_continuations st conts st' rs r0 :
  run_lines st conts = Ret (st', rs) →
  Forall (fun c => is_continuation c ∧ "via" ∈ split " " c) conts →
  cache_of st.1 r0 → protocol r0 ≠ Some "C" →
  Forall (fun r => same_route r r0) rs.
Proof.
  revert st rs.
  induction conts as [|c conts IH]; intros st rs H Hall Hcache HC; simpl in H.
  - injection H as _ <-. constructor.
  - step_bind H as [st1 r] Hline. step_bind H as [st2 rs'] Hrest.
    injection H as <- <-.
    apply Forall_cons in Hall as [[Hcont Hvia] Hall].
    destruct (quagga_line_via_continuation _ _ _ _ _ Hline Hcont Hvia Hcache HC)
      as [Hcache' Hsame].
    constructor; [done|]. by eapply IH.
Qed.

(** C5, as the code has it.  Take a line with a protocol code other than
    [C], followed by continuation lines that all contain the token [via].
    When the parser accepts the input, each of these continuation lines
    gives a record with the protocol code, subnet, AD and RD of the record
    of that line. *)
Theorem via_continuation_repeats_route hdr pre line conts rest out :
  length hdr = 4%nat →
  ¬ is_continuation line → str_getitem line 0 ≠ Ret "C" →
  Forall (fun c => is_continuation c ∧ "via" ∈ split " " c) conts →
  _process_quagga_rt (hdr ++ pre ++ line :: conts ++ rest) = Ret out →
  ∃ r, out !! length pre = Some r ∧
       ∀ i, (i < length conts)%nat →
            ∃ r', out !! (length pre + 1 + i)%nat = Some r' ∧ same_route r' r.
Proof.
  intros Hlen Hcont HC Hall H.
  apply process_quagga_rt_run in H as [st_end H]; [|done].
  apply run_lines_app in H as (st1 & rs1 & rs2 & Hpre & H & ->).
  apply run_lines_length in Hpre as Hlen1.
  simpl in H. step_bind H as [st2 r] Hline. step_bind H as [st3 rs3] H3.
  injection H as _ <-.
  apply run_lines_app in H3 as (st4 & rsc & rsr & Hconts & _ & ->).
  apply run_lines_length in Hconts as Hlenc.
  destruct (quagga_line_new_route _ _ _ _ Hline Hcont HC) as [Hcache HrC].
  pose proof (run_lines_via_continuations _ _ _ _ _ Hconts Hall Hcache HrC)
    as Hsame.
  exists r. split.
  - rewrite lookup_app_r by lia. by rewrite <- Hlen1, Nat.sub_diag.
  - intros i Hi.
    destruct (lookup_lt_is_Some_2 rsc i) as [r' Hr']; [lia|].
    exists r'. split.
    + rewrite lookup_app_r by lia.
      replace (length pre + 1 + i - length rs1)%nat with (S i) by lia.
      simpl. by rewrite lookup_app_l by lia.
    + rewrite Forall_forall in Hsame. apply Hsame.
      by eapply list_elem_of_lookup_2.
Qed.

Lemma via_continuation_repeats_route_witness :
  ∃ out r,
    _process_quagga_rt
      (Fixtures.quagga_header ++ [Fixtures.connected_line] ++
       Fixtures.ospf_line :: [Fixtures.via_continuation_line] ++ []) = Ret out ∧
    out !! 1%nat = Some r ∧
    ∀ i, (i < 1)%nat →
         ∃ r', out !! (1 + 1 + i)%nat = Some r' ∧ same_route r' r.
Proof.
  assert (¬ is_continuation Fixtures.ospf_line) as Hcont.
  { intros H. vm_compute in H. discriminate H. }
  assert (str_getitem Fixtures.ospf_line 0 ≠ Ret "C") as HC.
  { intros H. vm_compute in H. discriminate H. }
  assert (Forall (fun c => is_continuation c ∧ "via" ∈ split " " c)
            [Fixtures.via_continuation_line]) as Hall.
  { apply Forall_cons. split; [|apply Forall_nil_2].
    split; [reflexivity|]. apply (bool_decide_unpack _). vm_compute. exact I. }
  destruct (_process_quagga_rt
      (Fixtures.quagga_header ++ [Fixtures.connected_line] ++
       Fixtures.ospf_line :: [Fixtures.via_continuation_line] ++ []))
    as [out|e] eqn:Hrun; [|vm_compute in Hrun; discriminate Hrun].
  destruct (via_continuation_repeats_route Fixtures.quagga_header
              [Fixtures.connected_line] Fixtures.ospf_line
              [Fixtures.via_continuation_line] [] out
              eq_refl Hcont HC Hall Hrun)
    as (r & Hr & Hconts).
  exists out, r. split; [reflexivity|]. split; [exact Hr|exact Hconts].
Defined.

(** C5 does not hold as the specification states it: the continuation line
    [ >* 10.9.0.0/16 [5/7] is directly connected, eth1] after an OSPF route
    is accepted, keeps the protocol code [O], and gives a record with its
    own subnet, AD and RD. *)
Lemma is_continuation_line_takes_own_route :
  is_continuation Fixtures.is_continuation_line ∧
  ¬ is_continuation Fixtures.ospf_line ∧
  ∃ r r',
    _process_quagga_rt
      (Fixtures.quagga_header ++
       [Fixtures.ospf_line; Fixtures.is_continuation_line]) = Ret [r; r'] ∧
    protocol r' = protocol r ∧
    subnet r = Some "10.0.4.0/24" ∧ subnet r' = Some "10.9.0.0/16" ∧
    AD r = Some 110 ∧ AD r' = Some 5 ∧ RD r = Some 20 ∧ RD r' = Some 7.
Proof.
  split; [by vm_compute|]. split; [by vm_compute|].
  eexists _, _. split; [vm_compute; reflexivity|]. by vm_compute.
Qed.

End QuaggaFacts.

(** ** Residual path bandwidth *)
Section PathLoadFacts.
Import PathLoad Props.
Context {endpoint : Type}.
Variable nm : NetworkMap endpoint.
Variable parser : IPAddrParser endpoint.

Lemma foldl_min_is_minimum x l : is_minimum (foldl Z.min x l) (x :: l).
Proof.
  revert x. induction l as [|y l IH]; intros x; simpl.
  - split; [apply list_elem_of_here|].
    intros z Hz. apply list_elem_of_singleton in Hz as ->. lia.
  - destruct (IH (Z.min x y)) as [Hin Hle]. split.
    + apply elem_of_cons in Hin as [->|Hin].
      * destruct (Z.min_spec x y) as [[_ ->]|[_ ->]]; set_solver.
      * set_solver.
    + intros z Hz. assert (foldl Z.min (x `min` y) l ≤ x `min` y) as Hm.
      { apply Hle, list_elem_of_here. }
      rewrite !elem_of_cons in Hz. destruct Hz as [->|[->|Hz]]; [lia..|].
      apply Hle. by apply list_elem_of_further.
Qed.

Lemma drop_cons_lookup {A} (l : list A) i x rest :
  drop i l = x :: rest → l !! i = Some x ∧ drop (S i) l = rest.
Proof.
  intros H. split.
  - rewrite <- (Nat.add_0_r i), <- lookup_drop. by rewrite H.
  - replace (S i) with (i + 1)%nat by lia. rewrite <- drop_drop. by rewrite H.
Qed.

Lemma residual_step path i k acc a b cap :
  path !! i = Some a → path !! S i = Some b →
  known_segment nm (a, b) cap →
  residual_bws_loop nm path i (S i) (S k) acc =
  residual_bws_loop nm path (S i) (S (S i)) k
    (acc ++ [segment_residual nm (a, b) cap]).
Proof.
  intros Ha Hb [Hcap [ad Had]]. simpl in Hcap, Had.
  cbn [residual_bws_loop]. unfold path_get. rewrite Ha, Hb.
  cbn [mbind result_bind]. rewrite Hcap. cbn [mbind result_bind].
  unfold segment_residual, segment_load, user_to_user. simpl.
  destruct (decide (type nm a = "user" ∧ type nm b = "user")); [done|].
  unfold connecting_adapters in *. rewrite Had.
  destruct ad as [[ag al] [bg bl]].
  destruct (decide (type nm b = "user")).
  - by destruct (get_adapter_tx_load nm a (Some al)).
  - by destruct (get_adapter_rx_load nm b bl).
Qed.

Lemma residual_loop_known path k : ∀ i acc rest caps,
  drop i path = rest → length rest = S k →
  Forall2 (known_segment nm) (segments rest) caps →
  residual_bws_loop nm path i (S i) k acc =
  Ret (Some (acc ++ zip_with (segment_residual nm) (segments rest) caps)).
Proof.
  induction k as [|k IH]; intros i acc rest caps Hdrop Hlen Hall.
  - destruct rest as [|a [|b tl]]; try done.
    apply Forall2_nil_inv_l in Hall as ->. simpl. by rewrite app_nil_r.
  - destruct rest as [|a [|b tl]]; try done.
    change (segments (a :: b :: tl)) with ((a, b) :: segments (b :: tl)) in *.
    apply Forall2_cons_inv_l in Hall as (cap & caps' & Hseg & Hall & ->).
    apply drop_cons_lookup in Hdrop as [Ha Hdrop].
    apply drop_cons_lookup in Hdrop as Hb'. destruct Hb' as [Hb _].
    rewrite (residual_step _ _ _ _ a b cap) by done.
    rewrite (IH (S i) _ (b :: tl) caps') by (simpl in *; done || lia).
    simpl. by rewrite <- app_assoc.
Qed.

Lemma segment_residual_nonneg seg cap : 0 ≤ cap → 0 ≤ segment_residual nm seg cap.
Proof. unfold segment_residual. destruct (segment_load nm seg.1 seg.2); lia. Qed.

Lemma segment_residual_le_capacity seg cap :
  0 ≤ cap →
  (∀ load, segment_load nm seg.1 seg.2 = Some load → 0 ≤ load) →
  segment_residual nm seg cap ≤ cap.
Proof.
  unfold segment_residual. intros Hcap Hload.
  destruct (segment_load nm seg.1 seg.2) as [load|]; [|lia].
  specialize (Hload load eq_refl). lia.
Qed.

(** C3, as the code has it.  On a path of at least two devices whose
    segments all have a known capacity and connecting adapters, the cost is
    the least of the segment residuals, a residual being the raw capacity
    between two user devices or without load sample and
    [max(0, capacity - load)] otherwise.  When no capacity is negative the
    cost is at least 0, and when moreover no load sample is negative the
    cost is at most every segment's raw capacity. *)
Theorem residual_bw_is_least_segment_residual path caps :
  (2 ≤ length path)%nat →
  Forall2 (known_segment nm) (segments path) caps →
  ∃ cost,
    get_residual_bw_for_path nm path = Ret (Some cost) ∧
    is_minimum cost (zip_with (segment_residual nm) (segments path) caps) ∧
    ((∀ cap, cap ∈ caps → 0 ≤ cap) → 0 ≤ cost) ∧
    ((∀ cap, cap ∈ caps → 0 ≤ cap) →
     (∀ seg load, seg ∈ segments path →
        segment_load nm seg.1 seg.2 = Some load → 0 ≤ load) →
     ∀ cap, cap ∈ caps → cost ≤ cap).
Proof.
  intros Hlen Hall. unfold get_residual_bw_for_path.
  destruct (Z.ltb_spec (Z.of_nat (length path) - 1) 0) as [?|_]; [lia|].
  rewrite (residual_loop_known path _ 0 [] path caps); [|done|lia|done].
  cbn [mbind result_bind app].
  pose proof (Forall2_length _ _ _ Hall) as Hlens.
  destruct (zip_with (segment_residual nm) (segments path) caps)
    as [|x residuals] eqn:Hres.
  { destruct path as [|a [|b tl]]; simpl in Hlen; try lia.
    destruct caps; simpl in *; done. }
  exists (foldl Z.min x residuals). split; [done|].
  pose proof (foldl_min_is_minimum x residuals) as [Hin Hle].
  split; [done|]. split.
  - intros Hcaps. rewrite <- Hres in Hin.
    apply elem_of_zip_with in Hin as (seg & cap & -> & _ & Hcap).
    by apply segment_residual_nonneg, Hcaps.
  - intros Hcaps Hloads cap Hcap.
    apply list_elem_of_lookup in Hcap as [j Hj].
    destruct (lookup_lt_is_Some_2 (segments path) j) as [seg Hseg].
    { rewrite Hlens. by eapply lookup_lt_Some. }
    transitivity (segment_residual nm seg cap).
    + apply Hle. rewrite <- Hres. apply list_elem_of_lookup. exists j.
      by rewrite lookup_zip_with, Hseg, Hj.
    + apply segment_residual_le_capacity.
      * apply Hcaps. by eapply list_elem_of_lookup_2.
      * intros load. apply Hloads. by eapply list_elem_of_lookup_2.
Qed.





Lemma cost_srcs_lookup srcs dsts : ∀ costmap cm ks m,
  cost_srcs nm parser srcs dsts costmap = Ret cm →
  cm !! ks = Some m →
  costmap !! ks = Some m ∨
  ∃ src, src ∈ srcs ∧ from_object parser src = ks ∧
    cost_dsts nm parser src dsts ∅ = Ret m ∧ any_key m = true.
Proof.
  induction srcs as [|src srcs IH]; intros costmap cm ks m H Hks; simpl in H.
  - injection H as <-. by left.
  - step_bind H as this_src Hthis.
    destruct (any_key this_src) eqn:Hany.
    + destruct (IH _ _ _ _ H Hks) as [Hold|(src' & Hin & Hkey & Hres)].
      * destruct (decide (from_object parser src = ks)) as [Heq|Hne].
        -- right. exists src. rewrite Heq, lookup_insert_eq in Hold.
           injection Hold as <-. split; [apply list_elem_of_here|done].
        -- left. by rewrite lookup_insert_ne in Hold.
      * right. exists src'. split; [by apply list_elem_of_further|done].
    + destruct (IH _ _ _ _ H Hks) as [Hold|(src' & Hin & Hkey & Hres)].
      * by left.
      * right. exists src'. split; [by apply list_elem_of_further|done].
Qed.

Lemma any_key_has_key (d : gmap string Z) :
  any_key d = true → ∃ k, is_Some (d !! k).
Proof.
  unfold any_key. intros H. apply bool_decide_eq_true in H.
  apply Exists_exists in H as (k & Hk & _).
  exists k. by apply elem_of_dom, elem_of_elements.
Qed.






Lemma cost_dsts_raises src dsts dst : ∀ this_src,
  dst ∈ dsts →
  raises (get_residual_bw_for_path nm (dev_to_dev_iterator nm src dst)) →
  raises (cost_dsts nm parser src dsts this_src).
Proof.
  induction dsts as [|dst' dsts IH]; intros this_src Hin Hr.
  { by apply elem_of_nil in Hin. }
  simpl.
  destruct (get_residual_bw_for_path nm (dev_to_dev_iterator nm src dst'))
    as [[rbw|]|e] eqn:Hres; simpl; [| |done].
  - apply IH; [|done]. apply elem_of_cons in Hin as [->|Hin]; [|done].
    by rewrite Hres in Hr.
  - apply IH; [|done]. apply elem_of_cons in Hin as [->|Hin]; [|done].
    by rewrite Hres in Hr.
Qed.

Lemma cost_srcs_raises srcs dsts src : ∀ costmap,
  src ∈ srcs →
  (∀ this_src, raises (cost_dsts nm parser src dsts this_src)) →
  raises (cost_srcs nm parser srcs dsts costmap).
Proof.
  induction srcs as [|src' srcs IH]; intros costmap Hin Hr.
  { by apply elem_of_nil in Hin. }
  simpl.
  destruct (cost_dsts nm parser src' dsts ∅) as [this_src|e] eqn:Hres;
    simpl; [|done].
  assert (src ∈ srcs) as Hin'.
  { apply elem_of_cons in Hin as [->|Hin]; [|done].
    specialize (Hr ∅). by rewrite Hres in Hr. }
  destruct (any_key this_src); by apply IH.
Qed.

(** C10.  On a path of a single device the list of residuals stays empty
    and [min] raises [ValueError]; [get_cost] then raises for every request
    that has a pair with such a path, and raises that [ValueError] when the
    pair is the whole request. *)
Theorem single_device_path_raises n :
  get_residual_bw_for_path nm [n] = Raise ValueError ∧
  (∀ in_srcs in_dsts s d, s ∈ in_srcs → d ∈ in_dsts →
     path_of nm parser s d = [n] →
     raises (get_cost nm parser in_srcs in_dsts)) ∧
  (∀ s d, path_of nm parser s d = [n] →
     get_cost nm parser [s] [d] = Raise ValueError).
Proof.
  split; [done|]. unfold path_of. split.
  - intros in_srcs in_dsts s d Hs Hd Hpath. unfold get_cost.
    apply (cost_srcs_raises _ _ (to_object parser s)).
    { by apply list_elem_of_fmap_2. }
    intros this_src. apply (cost_dsts_raises _ _ (to_object parser d)).
    { by apply list_elem_of_fmap_2. }
    by rewrite Hpath.
  - intros s d Hpath. unfold get_cost. simpl. by rewrite Hpath.
Qed.

End PathLoadFacts.

(** ** Residual path bandwidth on the example networks *)
Section PathLoadExamples.
Import PathLoad Props Fixtures.


Lemma text_parser_inj : Inj (=) (=) (from_object text_parser).
Proof. intros x y H. exact H. Qed.

Lemma residual_bw_is_least_segment_residual_witness :
  ∃ cost,
    get_residual_bw_for_path line_net [0; 1; 2; 3]%nat = Ret (Some cost) ∧
    is_minimum cost
      (zip_with (segment_residual line_net) (segments [0; 1; 2; 3]%nat)
         [100; 50; 100]) ∧
    ((∀ cap, cap ∈ [100; 50; 100] → 0 ≤ cap) → 0 ≤ cost) ∧
    ((∀ cap, cap ∈ [100; 50; 100] → 0 ≤ cap) →
     (∀ seg load, seg ∈ segments [0; 1; 2; 3]%nat →
        segment_load line_net seg.1 seg.2 = Some load → 0 ≤ load) →
     ∀ cap, cap ∈ [100; 50; 100] → cost ≤ cap).
Proof.
  apply (residual_bw_is_least_segment_residual line_net
           [0; 1; 2; 3]%nat [100; 50; 100]).
  - simpl. lia.
  - change (segments [0; 1; 2; 3]%nat) with [(0, 1); (1, 2); (2, 3)]%nat.
    constructor; [|constructor; [|constructor; [|constructor]]];
      (split; [vm_compute; reflexivity | eexists; vm_compute; reflexivity]).
Defined.

(** C3 does not hold as the specification states it: between the routers [r1] and [r2], with a
    capacity of 10 and a receive load of -5 sampled on [r2], the segment has
    a known capacity and connecting adapters and the cost is 15, above the
    raw capacity. *)
Lemma negative_load_cost_exceeds_capacity :
  (2 ≤ length [1; 2]%nat)%nat ∧
  Forall2 (known_segment negative_load_net) (segments [1; 2]%nat) [10] ∧
  get_residual_bw_for_path negative_load_net [1; 2]%nat = Ret (Some 15) ∧
  ¬ (15 ≤ 10).
Proof.
  split; [simpl; lia|]. split; [|split; [vm_compute; reflexivity|lia]].
  change (segments [1; 2]%nat) with [(1, 2)%nat].
  constructor; [|constructor].
  split; [vm_compute; reflexivity | eexists; vm_compute; reflexivity].
Qed.



Lemma single_device_path_raises_witness :
  path_of line_net text_parser "10.0.0.1" "10.0.0.1" = [0%nat] ∧
  get_residual_bw_for_path line_net [0%nat] = Raise ValueError ∧
  raises (get_cost line_net text_parser
            ["10.0.0.1"; "10.0.3.1"] ["10.0.3.1"; "10.0.0.1"]) ∧
  get_cost line_net text_parser ["10.0.0.1"] ["10.0.0.1"] = Raise ValueError.
Proof.
  destruct (single_device_path_raises line_net text_parser 0%nat)
    as (Hmin & Hany & Hone).
  split; [reflexivity|]. split; [exact Hmin|]. split.
  - apply (Hany ["10.0.0.1"; "10.0.3.1"] ["10.0.3.1"; "10.0.0.1"]
             "10.0.0.1" "10.0.0.1").
    + apply list_elem_of_here.
    + apply list_elem_of_further, list_elem_of_here.
    + reflexivity.
  - apply Hone. reflexivity.
Defined.

End PathLoadExamples.

(** ** Kernel routing table: the loop over the lines *)
Section RoutingTableFacts.
Import NetHelpers Props Derived.

Lemma rt_lines_acc order lines : ∀ es lg,
  rt_lines order false lines es lg =
  '(e, g) ← rt_lines order false lines [] []; Ret (es ++ e, lg ++ g).
Proof.
  induction lines as [|line lines IH]; intros es lg; simpl.
  - by rewrite !app_nil_r.
  - destruct (decide (line = String "010" EmptyString)); [apply IH|].
    destruct (decide (line = EmptyString)); [simpl; by rewrite !app_nil_r|].
    destruct (_parse_rt_line order line) as [[entry log']|e]; simpl; [|done].
    rewrite IH. rewrite (IH [entry] log').
    destruct (rt_lines order false lines [] []) as [[e g]|e]; simpl; [|done].
    by rewrite <- !app_assoc.
Qed.

Lemma rt_lines_app order lines1 lines2 : ∀ es lg,
  EmptyString ∉ lines1 →
  rt_lines order false (lines1 ++ lines2) es lg =
  '(e1, g1) ← rt_lines order false lines1 es lg;
  rt_lines order false lines2 e1 g1.
Proof.
  induction lines1 as [|line lines1 IH]; intros es lg Hnot; simpl.
  { done. }
  apply not_elem_of_cons in Hnot as [Hne Hnot].
  destruct (decide (line = String "010" EmptyString)); [by apply IH|].
  destruct (decide (line = EmptyString)) as [->|_]; [done|].
  destruct (_parse_rt_line order line) as [[entry log']|e]; simpl; [|done].
  by apply IH.
Qed.

Lemma rt_lines_skip_newline order lines1 lines2 : ∀ es lg,
  rt_lines order false (lines1 ++ newline :: lines2) es lg =
  rt_lines order false (lines1 ++ lines2) es lg.
Proof.
  induction lines1 as [|line lines1 IH]; intros es lg; simpl; [done|].
  destruct (decide (line = String "010" EmptyString)); [by apply IH|].
  destruct (decide (line = EmptyString)); [done|].
  destruct (_parse_rt_line order line) as [[entry log']|e]; simpl; [|done].
  by apply IH.
Qed.

Lemma rt_lines_stop order lines1 lines2 : ∀ es lg,
  rt_lines order false (lines1 ++ EmptyString :: lines2) es lg =
  rt_lines order false lines1 es lg.
Proof.
  induction lines1 as [|line lines1 IH]; intros es lg; simpl; [done|].
  destruct (decide (line = String "010" EmptyString)); [by apply IH|].
  destruct (decide (line = EmptyString)); [done|].
  destruct (_parse_rt_line order line) as [[entry log']|e]; simpl; [|done].
  by apply IH.
Qed.

(** X1.  Lines that [get_routing_table] never parses: the first line,
    whatever it is; a line that is a single newline, wherever it stands;
    and everything from the first empty string on. *)
Theorem get_routing_table_ignored_lines order header lines1 lines2 :
  (∀ header', get_routing_table order (header :: lines1) =
              get_routing_table order (header' :: lines1)) ∧
  get_routing_table order (header :: lines1 ++ newline :: lines2) =
    get_routing_table order (header :: lines1 ++ lines2) ∧
  get_routing_table order (header :: lines1 ++ EmptyString :: lines2) =
    get_routing_table order (header :: lines1).
Proof.
  unfold get_routing_table. simpl. split_and!; [done| |].
  - apply rt_lines_skip_newline.
  - apply rt_lines_stop.
Qed.

(** X2.  The table of two blocks of lines is the table of the first block
    followed by the table of the second, entries and log alike, when the
    first block has no empty string; the second block is not read when the
    first one raises. *)
Theorem get_routing_table_app order header lines1 lines2 :
  EmptyString ∉ lines1 →
  get_routing_table order (header :: lines1 ++ lines2) =
  '(e1, g1) ← get_routing_table order (header :: lines1);
  '(e2, g2) ← get_routing_table order (header :: lines2);
  Ret (e1 ++ e2, g1 ++ g2).
Proof.
  intros Hnot. unfold get_routing_table. simpl.
  rewrite rt_lines_app by done.
  destruct (rt_lines order false lines1 [] []) as [[e1 g1]|e]; simpl; [|done].
  apply rt_lines_acc.
Qed.

Lemma rt_token_step order index word rt_line log rt_line' log' :
  rt_token order index word (rt_line, log) = Ret (rt_line', log') →
  dom rt_line' = dom rt_line ∪ list_to_set (take 1 (drop index rt_keys)) ∧
  log' = log ++ (if decide (index < 11)%nat then [] else [too_many_tokens]).
Proof.
  intros H.
  destruct index as [|index].
  { simpl in H. injection H as <- <-.
    split; [rewrite dom_insert_L; simpl; rewrite union_empty_r_L;
                 apply (comm_L (∪))
                | by rewrite app_nil_r]. }
  do 10 (destruct index as [|index];
         [simpl in H; inv_bind H; injection H as <- <-;
          split; [rewrite dom_insert_L; simpl; rewrite union_empty_r_L;
                 apply (comm_L (∪))
                | by rewrite app_nil_r]|]).
  simpl in H. injection H as <- <-. split.
  - simpl. rewrite drop_nil. simpl. by rewrite union_empty_r_L.
  - by rewrite decide_False by lia.
Qed.

Lemma rt_tokens_dom order words : ∀ index rt_line log rt_line' log',
  rt_tokens order index words (rt_line, log) = Ret (rt_line', log') →
  dom rt_line' =
    dom rt_line ∪ list_to_set (take (length words) (drop index rt_keys)) ∧
  (length log' + (index - 11) = length log + (index + length words - 11))%nat ∧
  (Forall (eq too_many_tokens) log → Forall (eq too_many_tokens) log').
Proof.
  induction words as [|w words IH]; intros index m log m' log' H; simpl in H.
  - injection H as <- <-. simpl. rewrite Nat.add_0_r.
    split; [by rewrite union_empty_r_L|done].
  - step_bind H as [m1 log1] Hstep.
    apply rt_token_step in Hstep as [Hdom ->].
    apply IH in H as (Hdom' & Hlen & Hall). split; [|split].
    + rewrite Hdom', Hdom.
      replace (S index) with (index + 1)%nat by lia. rewrite <- drop_drop.
      destruct (drop index rt_keys) as [|k keys]; simpl.
      * rewrite take_nil. simpl. by rewrite !union_empty_r_L.
      * rewrite union_empty_r_L. by rewrite (assoc_L (∪)).
    + rewrite length_app in Hlen. simpl.
      destruct (decide (index < 11)%nat); simpl in Hlen; lia.
    + intros Hlog. apply Hall, Forall_app. split; [done|].
      destruct (decide (index < 11)%nat); by repeat constructor.
Qed.

(** X3.  A line that is parsed gives a dictionary whose keys are the first
    names of [rt_keys], one for each column up to the eleventh, so a line
    with fewer than 11 columns gives a partial dictionary and no log; the
    log has one record for each column after the eleventh. *)
Theorem parse_rt_line_keys order str_line rt_line log :
  _parse_rt_line order str_line = Ret (rt_line, log) →
  dom rt_line =
    list_to_set (take (length (split "009" str_line)) rt_keys) ∧
  length log = (length (split "009" str_line) - 11)%nat ∧
  Forall (eq too_many_tokens) log.
Proof.
  unfold _parse_rt_line. intros H.
  apply rt_tokens_dom in H as (Hdom & Hlen & Hall).
  rewrite dom_empty_L, drop_0, union_empty_l_L in Hdom. simpl in Hlen.
  split; [done|]. split; [lia|]. by apply Hall.
Qed.

Lemma parse_rt_line_keys_witness :
  ∃ rt_line,
    _parse_rt_line big (Fixtures.tab_join ["lo"; "7F000000"]) =
      Ret (rt_line, []) ∧
    dom rt_line = list_to_set ["ifname"; "destination"].
Proof.
  assert (∃ rt_line,
            _parse_rt_line big (Fixtures.tab_join ["lo"; "7F000000"]) =
            Ret (rt_line, [])) as [rt_line Hparse]
    by (eexists; vm_compute; reflexivity).
  exists rt_line. split; [exact Hparse|].
  exact (proj1 (parse_rt_line_keys _ _ _ _ Hparse)).
Defined.

Lemma rt_lines_count order lines : ∀ es lg es' lg',
  EmptyString ∉ lines →
  rt_lines order false lines es lg = Ret (es', lg') →
  length es' = (length es + length (filter (λ l, l ≠ newline) lines))%nat ∧
  (Forall (eq too_many_tokens) lg → Forall (eq too_many_tokens) lg').
Proof.
  induction lines as [|line lines IH]; intros es lg es' lg' Hnot H; simpl in H.
  - injection H as <- <-. simpl. split; [lia|done].
  - apply not_elem_of_cons in Hnot as [Hne Hnot].
    destruct (decide (line = String "010" EmptyString)) as [->|Hnl].
    + rewrite filter_cons_False by (intros Hc; by apply Hc).
      by apply IH.
    + rewrite filter_cons_True by done.
      destruct (decide (line = EmptyString)) as [->|_]; [done|].
      step_bind H as [entry log'] Hparse.
      apply IH in H as [Hlen Hall]; [|done]. split.
      * rewrite Hlen, length_app. simpl. lia.
      * intros Hlg. apply Hall, Forall_app. split; [done|].
        unfold _parse_rt_line in Hparse.
        apply rt_tokens_dom in Hparse as (_ & _ & Hlog'). by apply Hlog'.
Qed.

(** X4.  When no line is the empty string and the call returns, the table
    has one entry for each line after the header that is not a single
    newline, in the order of the lines, and every log record is the one
    about a surplus column. *)
Theorem get_routing_table_entries order header lines entries log :
  EmptyString ∉ lines →
  get_routing_table order (header :: lines) = Ret (entries, log) →
  length entries = length (filter (λ l, l ≠ newline) lines) ∧
  Forall (eq too_many_tokens) log.
Proof.
  unfold get_routing_table. simpl. intros Hnot H.
  apply rt_lines_count in H as [Hlen Hall]; [|done].
  split; [done|]. by apply Hall.
Qed.

Lemma get_routing_table_entries_witness :
  ∃ entries log,
    get_routing_table little [rt_header; "lo"; newline; "lo"] =
      Ret (entries, log) ∧
    length entries = length (filter (λ l, l ≠ newline) ["lo"; newline; "lo"]) ∧
    Forall (eq too_many_tokens) log.
Proof.
  assert (∃ entries log,
            get_routing_table little [rt_header; "lo"; newline; "lo"] =
            Ret (entries, log)) as (entries & log & Hrun)
    by (eexists _, _; vm_compute; reflexivity).
  exists entries, log. split; [exact Hrun|].
  apply (get_routing_table_entries little rt_header
           ["lo"; newline; "lo"] entries log); [|exact Hrun].
  apply (bool_decide_unpack _). vm_compute. exact I.
Defined.

Lemma rt_lines_raises order lines row : ∀ es lg,
  row ∈ lines → EmptyString ∉ lines → row ≠ newline →
  raises (_parse_rt_line order row) →
  raises (rt_lines order false lines es lg).
Proof.
  induction lines as [|line lines IH]; intros es lg Hin Hnot Hnl Hr.
  { by apply elem_of_nil in Hin. }
  apply not_elem_of_cons in Hnot as [Hne Hnot]. simpl.
  destruct (decide (line = String "010" EmptyString)) as [->|_].
  { apply IH; try done. by apply elem_of_cons in Hin as [?|?]. }
  destruct (decide (line = EmptyString)) as [->|_]; [done|].
  destruct (_parse_rt_line order line) as [[entry log']|e] eqn:Hparse;
    simpl; [|done].
  apply IH; try done.
  apply elem_of_cons in Hin as [->|?]; [|done]. by rewrite Hparse in Hr.
Qed.

(** X5.  One line that cannot be decoded loses the whole table: when a
    line after the header, in a file without empty string, is not a single
    newline and makes [_parse_rt_line] raise, [get_routing_table] raises
    and returns no entry at all. *)
Theorem get_routing_table_bad_line_raises order header lines row :
  row ∈ lines → EmptyString ∉ lines → row ≠ newline →
  raises (_parse_rt_line order row) →
  raises (get_routing_table order (header :: lines)).
Proof.
  intros Hin Hnot Hnl Hr. unfold get_routing_table. simpl.
  by apply rt_lines_raises with row.
Qed.

Lemma get_routing_table_bad_line_raises_witness :
  raises (get_routing_table little
            [rt_header; rt_row_default; rt_row_bad; rt_row_local]).
Proof.
  apply (get_routing_table_bad_line_raises little rt_header
           [rt_row_default; rt_row_bad; rt_row_local] rt_row_bad).
  - apply list_elem_of_further, list_elem_of_here.
  - apply (bool_decide_unpack _). vm_compute. exact I.
  - intros H. vm_compute in H. discriminate H.
  - vm_compute. exact I.
Defined.

Lemma get_routing_table_app_witness :
  get_routing_table little
    (rt_header :: [rt_row_default; newline] ++ [rt_row_local]) =
  '(e1, g1) ← get_routing_table little (rt_header :: [rt_row_default; newline]);
  '(e2, g2) ← get_routing_table little (rt_header :: [rt_row_local]);
  Ret (e1 ++ e2, g1 ++ g2).
Proof.
  apply (get_routing_table_app little rt_header
           [rt_row_default; newline] [rt_row_local]).
  apply (bool_decide_unpack _). vm_compute. exact I.
Defined.

Lemma hex_val_digit n : 0 ≤ n < 16 → hex_val (hex_digit n) = Some n.
Proof.
  intros Hn. assert (∃ k : nat, n = Z.of_nat k ∧ (k < 16)%nat) as (k & -> & Hk).
  { exists (Z.to_nat n). lia. }
  do 16 (destruct k as [|k]; [reflexivity|]). lia.
Qed.

Lemma unhexlify_hex_byte b s :
  0 ≤ b < 256 →
  unhexlify (String (hex_digit (b / 16)) (String (hex_digit (b mod 16)) s)) =
  bs ← unhexlify s; Ret (b :: bs).
Proof.
  intros Hb. cbn [unhexlify].
  rewrite !hex_val_digit by (split; [apply Z.div_pos || apply Z.mod_pos_bound; lia
                                    |apply Z.div_lt_upper_bound || apply Z.mod_pos_bound; lia]).
  by rewrite <- Z.div_mod by lia.
Qed.

Lemma octets_of_address a b c d :
  0 ≤ a < 256 → 0 ≤ b < 256 → 0 ≤ c < 256 → 0 ≤ d < 256 →
  IPv4Address_str (d + 256 * (c + 256 * (b + 256 * (a + 0)))) =
  Ret (dotted_quad a b c d).
Proof.
  intros Ha Hb Hc Hd. unfold IPv4Address_str, dotted_quad.
  set (addr := d + 256 * (c + 256 * (b + 256 * (a + 0)))).
  assert (0 ≤ addr ≤ 4294967295) as Haddr by (unfold addr; lia).
  destruct (Z.ltb_spec addr 0); [lia|].
  destruct (Z.ltb_spec 4294967295 addr); [lia|]. simpl.
  rewrite !Z.shiftr_div_pow2 by lia.
  change 255 with (Z.ones 8). rewrite !Z.land_ones by lia.
  change (2 ^ 24) with 16777216. change (2 ^ 16) with 65536.
  change (2 ^ 8) with 256.
  assert ((addr `div` 16777216) `mod` 256 = a) as ->.
  { unfold addr. Z.div_mod_to_equations. lia. }
  assert ((addr `div` 65536) `mod` 256 = b) as ->.
  { unfold addr. Z.div_mod_to_equations. lia. }
  assert ((addr `div` 256) `mod` 256 = c) as ->.
  { unfold addr. Z.div_mod_to_equations. lia. }
  assert (addr `mod` 256 = d) as ->.
  { unfold addr. Z.div_mod_to_equations. lia. }
  done.
Qed.

(** X6.  The address columns round-trip: the four bytes [b0 b1 b2 b3]
    written as eight hexadecimal digits decode to the dotted text
    [b3.b2.b1.b0] on a little-endian machine and to [b0.b1.b2.b3] on a
    big-endian one. *)
Theorem hex_addr_of_bytes b0 b1 b2 b3 :
  0 ≤ b0 < 256 → 0 ≤ b1 < 256 → 0 ≤ b2 < 256 → 0 ≤ b3 < 256 →
  hex_addr little (hex_byte b0 +:+ hex_byte b1 +:+ hex_byte b2 +:+ hex_byte b3)
    = Ret (dotted_quad b3 b2 b1 b0) ∧
  hex_addr big (hex_byte b0 +:+ hex_byte b1 +:+ hex_byte b2 +:+ hex_byte b3)
    = Ret (dotted_quad b0 b1 b2 b3).
Proof.
  intros H0 H1 H2 H3. unfold hex_addr.
  change (hex_byte b0 +:+ hex_byte b1 +:+ hex_byte b2 +:+ hex_byte b3) with
    (String (hex_digit (b0 / 16)) (String (hex_digit (b0 mod 16))
    (String (hex_digit (b1 / 16)) (String (hex_digit (b1 mod 16))
    (String (hex_digit (b2 / 16)) (String (hex_digit (b2 mod 16))
    (String (hex_digit (b3 / 16)) (String (hex_digit (b3 mod 16))
       EmptyString)))))))).
  rewrite !unhexlify_hex_byte by done. cbn [unhexlify mbind result_bind].
  unfold from_bytes. cbn [rev app from_bytes_little].
  split; by apply octets_of_address.
Qed.

Lemma hex_addr_of_bytes_witness :
  hex_byte 0 +:+ hex_byte 0 +:+ hex_byte 168 +:+ hex_byte 192 = "0000A8C0" ∧
  hex_addr little "0000A8C0" = Ret "192.168.0.0" ∧
  hex_addr big "0000A8C0" = Ret "0.0.168.192".
Proof.
  split; [reflexivity|].
  apply (hex_addr_of_bytes 0 0 168 192); lia.
Defined.

Lemma land_pow2_testbit n k :
  0 ≤ k → Z.land n (2 ^ k) = if Z.testbit n k then 2 ^ k else 0.
Proof.
  intros Hk. apply Z.bits_inj'. intros i Hi.
  rewrite Z.land_spec, Z.pow2_bits_eqb by done.
  destruct (Z.eqb_spec k i) as [->|Hne].
  - destruct (Z.testbit n i); simpl.
    + by rewrite Z.pow2_bits_true.
    + by rewrite Z.bits_0.
  - rewrite andb_false_r. destruct (Z.testbit n k).
    + by rewrite Z.pow2_bits_false.
    + by rewrite Z.bits_0.
Qed.

(** X7.  The flags column is read as a bit mask: [U] is among the flags
    exactly when bit 0 is set and [G] exactly when bit 1 is set, whatever
    the other bits and the sign; no other flag is ever reported, and [U]
    comes before [G]. *)
Theorem rt_flags_bits int_flags :
  ("U" ∈ rt_flags int_flags ↔ Z.testbit int_flags 0 = true) ∧
  ("G" ∈ rt_flags int_flags ↔ Z.testbit int_flags 1 = true) ∧
  rt_flags int_flags `sublist_of` ["U"; "G"].
Proof.
  unfold rt_flags.
  pose proof (land_pow2_testbit int_flags 0 (Z.le_refl 0)) as H0.
  pose proof (land_pow2_testbit int_flags 1 ltac:(lia)) as H1.
  change (2 ^ 0) with 1 in H0. change (2 ^ 1) with 2 in H1.
  rewrite H0, H1.
  destruct (Z.testbit int_flags 0), (Z.testbit int_flags 1); simpl;
    (split_and!;
     [split; intros Hin;
      first [ reflexivity
            | discriminate Hin
            | apply (bool_decide_unpack _); vm_compute; exact I
            | exfalso; apply (bool_decide_pack _) in Hin;
              vm_compute in Hin; exact Hin ]..
     |repeat first [apply sublist_skip | apply sublist_cons
                   | apply sublist_nil]]).
Qed.

End RoutingTableFacts.

(** ** Interface addresses: failures *)
Section IpAddrFailures.
Import NetHelpers Derived.

Lemma split_length sep s : length (split sep s) = S (count_char sep s).
Proof.
  induction s as [|c s IH]; simpl; [done|].
  destruct (Ascii.eqb c sep); simpl; [by rewrite IH|].
  destruct (split sep s) as [|w ws]; [done|]. by rewrite <- IH.
Qed.

Lemma raises_bind {A B} (m : result A) (f : A → result B) :
  (∀ a, m = Ret a → raises (f a)) → raises (m ≫= f).
Proof. destruct m as [a|e]; simpl; [|done]. intros H. by apply H. Qed.

(** X8.  A line that does not have exactly one backslash cannot be cut in
    its two blocks: the parse raises [ValueError] before reading any
    field. *)
Theorem parse_ip_addr_line_needs_one_backslash line :
  count_char "\" line ≠ 1%nat →
  _parse_ip_addr_single_line line = Raise ValueError.
Proof.
  intros Hcount. unfold _parse_ip_addr_single_line.
  pose proof (split_length "\" line) as Hlen.
  destruct (split "\" line) as [|b1 [|b2 [|b3 bs]]]; try done.
  simpl in Hlen. lia.
Qed.

Lemma parse_ip_addr_line_needs_one_backslash_witness :
  _parse_ip_addr_single_line ip_addr_line_no_backslash = Raise ValueError.
Proof.
  apply parse_ip_addr_line_needs_one_backslash. vm_compute. lia.
Defined.

(** X9.  A line whose valid lifetime is [forever] and whose preferred
    lifetime is not is never parsed: the preferred lifetime is read from
    the token of the valid lifetime, and [forever] is not a number. *)
Theorem parse_ip_addr_line_forever_then_finite_raises line block1 block2 t3 :
  split "\" line = [block1; block2] →
  getitem (split " " block2) 1 = Ret "forever" →
  getitem (split " " block2) 3 = Ret t3 →
  t3 ≠ "forever" →
  raises (_parse_ip_addr_single_line line).
Proof.
  intros Hsplit Ht1 Ht3 Hne. unfold _parse_ip_addr_single_line.
  rewrite Hsplit. cbn [unpack2 mbind result_bind].
  do 4 (apply raises_bind; intros ? _).
  apply raises_bind; intros [d_brd scope_val_id] _.
  apply raises_bind; intros d_scope _.
  rewrite Ht1, Ht3. cbn [mbind result_bind].
  rewrite (decide_True (P := "forever" = "forever")) by done.
  cbn [mbind result_bind]. rewrite decide_False by done.
  by vm_compute.
Qed.

Lemma parse_ip_addr_line_forever_then_finite_raises_witness :
  raises (_parse_ip_addr_single_line ip_addr_line_forever_valid).
Proof.
  apply (parse_ip_addr_line_forever_then_finite_raises
           ip_addr_line_forever_valid
           "2: eth0 inet 10.0.0.1/24 brd 10.0.0.255 scope global eth0"
           "valid_lft forever preferred_lft 100sec" "100sec").
  - vm_compute. reflexivity.
  - vm_compute. reflexivity.
  - vm_compute. reflexivity.
  - intros H. discriminate H.
Defined.

End IpAddrFailures.

(** ** Quagga routing table: the table as a whole *)
Section QuaggaTableFacts.
Import NetHelpers Props Derived.

Lemma quagga_lines_short st lines : ∀ lineno out,
  (lineno + length lines ≤ 4)%nat →
  quagga_lines st lineno lines out = Ret out.
Proof.
  induction lines as [|line lines IH]; intros lineno out Hlen; [done|].
  simpl in *. rewrite decide_True.
  - apply IH. lia.
  - do 4 (destruct lineno as [|lineno];
          [repeat (apply list_elem_of_here || apply list_elem_of_further)|]).
    lia.
Qed.

Lemma process_quagga_rt_eq hdr lines :
  length hdr = 4%nat →
  _process_quagga_rt (hdr ++ lines) =
  '(_, rs) ← run_lines initial_state lines; Ret rs.
Proof.
  intros Hlen. unfold _process_quagga_rt.
  by rewrite quagga_lines_header, quagga_lines_run by done.
Qed.

Lemma run_lines_app_eq st lines1 lines2 :
  run_lines st (lines1 ++ lines2) =
  '(st1, rs1) ← run_lines st lines1;
  '(st2, rs2) ← run_lines st1 lines2;
  Ret (st2, rs1 ++ rs2).
Proof.
  revert st. induction lines1 as [|line lines1 IH]; intros st; simpl.
  - by destruct (run_lines st lines2) as [[st2 rs2]|e].
  - destruct (quagga_line st line) as [[st' r]|e]; simpl; [|done].
    rewrite IH.
    destruct (run_lines st' lines1) as [[st1 rs1]|e]; simpl; [|done].
    by destruct (run_lines st1 lines2) as [[st2 rs2]|e].
Qed.

Lemma process_quagga_rt_length lines out :
  _process_quagga_rt lines = Ret out →
  length out = (length lines - 4)%nat.
Proof.
  intros H. destruct (decide (length lines < 4)%nat) as [Hlt|Hge].
  - unfold _process_quagga_rt in H.
    rewrite quagga_lines_short in H by lia. injection H as <-. simpl. lia.
  - rewrite <- (take_drop 4 lines) in H.
    apply process_quagga_rt_run in H as [st H].
    + apply run_lines_length in H. by rewrite H, length_drop.
    + rewrite length_take. lia.
Qed.

(** X10.  When [_process_quagga_rt] returns, it returns one record for each
    line after the first four, in the order of the lines, and none when
    there are four lines or fewer. *)
Theorem process_quagga_rt_one_record_per_line lines out :
  _process_quagga_rt lines = Ret out →
  length out = (length lines - 4)%nat.
Proof. apply process_quagga_rt_length. Qed.

Lemma process_quagga_rt_one_record_per_line_witness :
  ∃ out,
    _process_quagga_rt
      (Fixtures.quagga_header ++
       [Fixtures.connected_line; Fixtures.ospf_line;
        Fixtures.via_continuation_line]) = Ret out ∧
    length out = 3%nat.
Proof.
  destruct (_process_quagga_rt
      (Fixtures.quagga_header ++
       [Fixtures.connected_line; Fixtures.ospf_line;
        Fixtures.via_continuation_line]))
    as [out|e] eqn:Hrun; [|vm_compute in Hrun; discriminate Hrun].
  exists out. split; [reflexivity|].
  exact (process_quagga_rt_one_record_per_line _ _ Hrun).
Defined.

(** X11.  [get_quagga_rt] answers [None] for fewer than five lines, even
    when they could not be parsed; when it answers with a list, there were
    five lines or more and the list has one record for each line after the
    fourth, so it is never empty. *)
Theorem get_quagga_rt_none_or_records lines :
  ((length lines < 5)%nat → get_quagga_rt lines = Ret None) ∧
  (∀ out, get_quagga_rt lines = Ret (Some out) →
     (5 ≤ length lines)%nat ∧ length out = (length lines - 4)%nat ∧
     out ≠ []).
Proof.
  unfold get_quagga_rt. split.
  - intros Hlt. by rewrite decide_True.
  - intros out H. destruct (decide (length lines < 5)%nat) as [?|Hge]; [done|].
    destruct (_process_quagga_rt lines) as [out'|e] eqn:Hrun; [|done].
    injection H as ->. apply process_quagga_rt_length in Hrun.
    split; [lia|]. split; [done|]. intros ->. simpl in Hrun. lia.
Qed.

Lemma get_quagga_rt_none_or_records_witness :
  get_quagga_rt (Fixtures.quagga_header) = Ret None ∧
  ∃ out, get_quagga_rt (Fixtures.quagga_header ++ [Fixtures.ospf_line]) =
           Ret (Some out) ∧
         length out = 1%nat ∧ out ≠ [].
Proof.
  split.
  - apply (get_quagga_rt_none_or_records Fixtures.quagga_header).
    simpl. lia.
  - destruct (get_quagga_rt (Fixtures.quagga_header ++ [Fixtures.ospf_line]))
      as [[out|]|e] eqn:Hrun;
      [|vm_compute in Hrun; discriminate Hrun..].
    exists out. split; [reflexivity|].
    apply (get_quagga_rt_none_or_records
             (Fixtures.quagga_header ++ [Fixtures.ospf_line])) in Hrun
      as (_ & Hlen & Hne).
    by split.
Defined.

Lemma quagga_line_short st line :
  (String.length line < 3)%nat → quagga_line st line = Raise IndexError.
Proof.
  intros Hlen. unfold quagga_line.
  destruct line as [|c0 [|c1 [|c2 line]]]; simpl in Hlen; try lia; try done.
  - change (str_getitem (String c0 EmptyString) 0)
      with (Ret (String c0 EmptyString) : result string).
    cbn [mbind result_bind].
    by destruct (decide (String c0 EmptyString = " ")).
  - change (str_getitem (String c0 (String c1 EmptyString)) 0)
      with (Ret (String c0 EmptyString) : result string).
    cbn [mbind result_bind].
    by destruct (decide (String c0 EmptyString = " ")).
Qed.

(** X12.  A line shorter than three characters after the header, such as
    an empty line, ends the parse: the call raises, and it raises
    [IndexError] when the lines before it are parsed. *)
Theorem process_quagga_rt_short_line_raises hdr pre line rest :
  length hdr = 4%nat → (String.length line < 3)%nat →
  raises (_process_quagga_rt (hdr ++ pre ++ line :: rest)) ∧
  (∀ out, _process_quagga_rt (hdr ++ pre) = Ret out →
     _process_quagga_rt (hdr ++ pre ++ line :: rest) = Raise IndexError).
Proof.
  intros Hhdr Hlen.
  rewrite !process_quagga_rt_eq, run_lines_app_eq by done.
  destruct (run_lines initial_state pre) as [[st1 rs1]|e]; simpl; [|done].
  by rewrite quagga_line_short.
Qed.

Lemma process_quagga_rt_short_line_raises_witness :
  _process_quagga_rt
    (Fixtures.quagga_header ++ [Fixtures.ospf_line] ++ EmptyString :: []) =
  Raise IndexError.
Proof.
  destruct (process_quagga_rt_short_line_raises Fixtures.quagga_header
              [Fixtures.ospf_line] EmptyString [] eq_refl) as [_ H].
  { simpl. lia. }
  destruct (_process_quagga_rt (Fixtures.quagga_header ++ [Fixtures.ospf_line]))
    as [out|e] eqn:Hrun; [|vm_compute in Hrun; discriminate Hrun].
  by apply (H out).
Defined.

Lemma quagga_lines_acc_prefix st lines : ∀ lineno acc out,
  quagga_lines st lineno lines acc = Ret out → acc `prefix_of` out.
Proof.
  revert st. induction lines as [|line lines IH]; intros st lineno acc out H.
  - injection H as <-. done.
  - simpl in H. destruct (decide (lineno ∈ [0; 1; 2; 3]%nat)).
    + by eapply IH.
    + step_bind H as [st' r] Hline. apply IH in H.
      by eapply prefix_app_l.
Qed.

Lemma quagga_lines_app_prefix st lines more : ∀ lineno acc out,
  quagga_lines st lineno (lines ++ more) acc = Ret out →
  ∃ out1, quagga_lines st lineno lines acc = Ret out1 ∧ out1 `prefix_of` out.
Proof.
  revert st. induction lines as [|line lines IH]; intros st lineno acc out H.
  - exists acc. split; [done|]. by eapply quagga_lines_acc_prefix.
  - simpl in *. destruct (decide (lineno ∈ [0; 1; 2; 3]%nat)).
    + by apply IH.
    + step_bind H as [st' r] Hline. rewrite Hline. simpl. by apply IH.
Qed.

(** X13.  The records of the first lines do not depend on the lines that
    follow: when a table is parsed, every table made of its first lines is
    parsed too, to the first records of the result. *)
Theorem process_quagga_rt_prefix lines more out :
  _process_quagga_rt (lines ++ more) = Ret out →
  ∃ out1, _process_quagga_rt lines = Ret out1 ∧ out1 `prefix_of` out.
Proof. apply quagga_lines_app_prefix. Qed.

Lemma process_quagga_rt_prefix_witness :
  ∃ out out1,
    _process_quagga_rt
      ((Fixtures.quagga_header ++ [Fixtures.ospf_line]) ++
       [Fixtures.via_continuation_line]) = Ret out ∧
    _process_quagga_rt (Fixtures.quagga_header ++ [Fixtures.ospf_line]) =
      Ret out1 ∧
    out1 `prefix_of` out.
Proof.
  destruct (_process_quagga_rt
      ((Fixtures.quagga_header ++ [Fixtures.ospf_line]) ++
       [Fixtures.via_continuation_line]))
    as [out|e] eqn:Hrun; [|vm_compute in Hrun; discriminate Hrun].
  destruct (process_quagga_rt_prefix _ _ _ Hrun) as (out1 & Hrun1 & Hpre).
  by exists out, out1.
Defined.

End QuaggaTableFacts.

(** ** Quagga routing table: one line *)
Section QuaggaLineFacts.
Import NetHelpers Props Derived.

Lemma via_loop_state_irrelevant tokens rest num c f f' :
  "via" ∈ rest →
  via_loop tokens rest num (c, f) = via_loop tokens rest num (c, f').
Proof.
  revert num. induction rest as [|token rest IH]; intros num Hin.
  { by apply elem_of_nil in Hin. }
  simpl. destruct (decide (token = "via")); [done|].
  apply IH. by apply elem_of_cons in Hin as [?|?].
Qed.

Lemma is_loop_state_irrelevant tokens rest num c f f' :
  "is" ∈ rest →
  is_loop tokens rest num (c, f) = is_loop tokens rest num (c, f').
Proof.
  revert num. induction rest as [|token rest IH]; intros num Hin.
  { by apply elem_of_nil in Hin. }
  simpl. destruct (decide (token = "is")); [done|].
  apply IH. by apply elem_of_cons in Hin as [?|?].
Qed.

(** X14.  A line that starts a route of a routing protocol (a first
    character that is neither a space nor [C]) is parsed on its own: the
    record, the state left behind and any exception are the same whatever
    the lines before it left in the cache and in the local variables. *)
Theorem quagga_line_new_route_ignores_state st st' line :
  ¬ is_continuation line → str_getitem line 0 ≠ Ret "C" →
  quagga_line st line = quagga_line st' line.
Proof.
  unfold quagga_line, is_continuation. intros Hcont HC.
  destruct (str_getitem line 0) as [c0|e]; [|done].
  cbn [mbind result_bind].
  destruct (decide (c0 = " ")) as [->|_]; [done|].
  destruct (str_getitem line 1) as [c1|e]; [|done].
  destruct (str_getitem line 2) as [c2|e]; [|done].
  cbn [mbind result_bind].
  destruct (decide (Some c0 = Some "C")) as [?|_]; [congruence|].
  destruct (decide ("via" ∈ split " " line)) as [Hvia|_].
  { by rewrite (via_loop_state_irrelevant _ _ _ _ st.2 st'.2). }
  destruct (decide ("is" ∈ split " " line)) as [His|_]; [|done].
  by rewrite (is_loop_state_irrelevant _ _ _ _ st.2 st'.2).
Qed.

Lemma quagga_line_new_route_ignores_state_witness :
  quagga_line initial_state static_is_line =
  quagga_line state_after_ospf static_is_line.
Proof.
  apply quagga_line_new_route_ignores_state.
  - intros H. vm_compute in H. discriminate H.
  - intros H. vm_compute in H. discriminate H.
Defined.

Lemma connected_loop_found tokens rest num st st' :
  "is" ∈ rest →
  connected_loop tokens rest num st = Ret st' →
  v_ad st'.2 = Some None ∧ v_rd st'.2 = Some None ∧ v_gw st'.2 = Some None ∧
  v_subnet st'.2 = Some (last_subnet st'.1) ∧ is_Some (last_subnet st'.1).
Proof.
  revert num. induction rest as [|token rest IH]; intros num Hin H.
  { by apply elem_of_nil in Hin. }
  simpl in H. destruct (decide (token = "is")) as [->|Hne].
  - step_bind H as sn Hsn. step_bind H as ifc Hifc. injection H as <-.
    simpl. by repeat split.
  - apply IH in H; [done|]. by apply elem_of_cons in Hin as [?|?].
Qed.

(** X15.  Under the code [C], a line that has the token [is] gives a record
    without gateway, AD and RD, with a subnet, and that subnet is the one
    left in the cache; this holds after any earlier line. *)
Theorem connected_line_with_is_has_no_gateway st line st' r :
  quagga_line st line = Ret (st', r) →
  line_proto st.1 line = Ret (Some "C") →
  "is" ∈ split " " line →
  protocol r = Some "C" ∧ GW r = None ∧ AD r = None ∧ RD r = None ∧
  is_Some (subnet r) ∧ last_subnet st'.1 = subnet r.
Proof.
  unfold quagga_line, line_proto. intros H Hproto His.
  step_bind Hproto as c0 Hc0. rewrite Hc0 in H. cbn [mbind result_bind] in H.
  injection Hproto as Hproto.
  destruct (decide (c0 = " ")) as [Hsp|Hsp];
    step_bind H as c1 Hc1; step_bind H as c2 Hc2; step_bind H as st1 Hloop;
    step_bind H as sn Hsn; step_bind H as ad Had; step_bind H as rd Hrd;
    step_bind H as gw Hgw; step_bind H as ifc Hifc; injection H as <- <-;
    rewrite Hproto in Hloop |- *;
    rewrite (decide_True (P := Some "C" = Some "C")) in Hloop by done;
    apply connected_loop_found in Hloop as (Ha & Hr & Hg & Hs & Hsome);
      try done;
    rewrite Ha in Had; rewrite Hr in Hrd; rewrite Hg in Hgw; rewrite Hs in Hsn;
    injection Had as <-; injection Hrd as <-; injection Hgw as <-;
    injection Hsn as <-; simpl; by repeat split.
Qed.

Lemma connected_line_with_is_has_no_gateway_witness :
  ∃ st' r,
    quagga_line state_after_ospf Fixtures.connected_line = Ret (st', r) ∧
    protocol r = Some "C" ∧ GW r = None ∧ AD r = None ∧ RD r = None ∧
    is_Some (subnet r) ∧ last_subnet st'.1 = subnet r.
Proof.
  destruct (quagga_line state_after_ospf Fixtures.connected_line)
    as [[st' r]|e] eqn:Hline; [|vm_compute in Hline; discriminate Hline].
  exists st', r. split; [reflexivity|].
  apply (connected_line_with_is_has_no_gateway _ _ _ _ Hline).
  - vm_compute. reflexivity.
  - apply (bool_decide_unpack _). vm_compute. exact I.
Defined.

Lemma via_loop_gateway tokens rest num st st' :
  "via" ∈ rest → via_loop tokens rest num st = Ret st' →
  ∃ gw, v_gw st'.2 = Some (Some gw).
Proof.
  revert num. induction rest as [|token rest IH]; intros num Hin H.
  { by apply elem_of_nil in Hin. }
  simpl in H. destruct (decide (token = "via")) as [->|Hne].
  - step_bind H as x Hx. destruct x as [[[c sn] ad] rd].
    step_bind H as t1 Ht1. step_bind H as t2 Ht2. injection H as <-.
    by eexists.
  - apply IH in H; [done|]. by apply elem_of_cons in Hin as [?|?].
Qed.

Lemma is_loop_gateway tokens rest num st st' :
  "is" ∈ rest ∨ v_gw st.2 = Some None →
  is_loop tokens rest num st = Ret st' → v_gw st'.2 = Some None.
Proof.
  revert num st. induction rest as [|token rest IH]; intros num st Hin H.
  { destruct Hin as [Hin|Hgw]; [by apply elem_of_nil in Hin|].
    by injection H as <-. }
  simpl in H. destruct (decide (token = "is")) as [->|Hne].
  - step_bind H as sn Hsn. step_bind H as adrd Hadrd. destruct adrd as [ad rd].
    step_bind H as t3 Ht3. apply IH in H; [done|by right].
  - apply IH in H; [done|].
    destruct Hin as [Hin|Hgw]; [|by right].
    apply elem_of_cons in Hin as [?|?]; [done|by left].
Qed.

(** X16.  Under a protocol code other than [C], the record of a line has a
    gateway exactly when the line has the token [via]. *)
Theorem routed_line_gateway_iff_via st line st' r proto :
  quagga_line st line = Ret (st', r) →
  line_proto st.1 line = Ret proto → proto ≠ Some "C" →
  (is_Some (GW r) ↔ "via" ∈ split " " line).
Proof.
  unfold quagga_line, line_proto. intros H Hproto HC.
  step_bind Hproto as c0 Hc0. rewrite Hc0 in H. cbn [mbind result_bind] in H.
  injection Hproto as Hproto.
  destruct (decide (c0 = " ")) as [Hsp|Hsp];
    step_bind H as c1 Hc1; step_bind H as c2 Hc2; step_bind H as st1 Hloop;
    step_bind H as sn Hsn; step_bind H as ad Had; step_bind H as rd Hrd;
    step_bind H as gw Hgw; step_bind H as ifc Hifc; injection H as <- <-;
    rewrite Hproto in Hloop;
    rewrite decide_False in Hloop by done; simpl;
    (destruct (decide ("via" ∈ split " " line)) as [Hvia|Hvia];
     [apply via_loop_gateway in Hloop as [g Hg]; [|done];
      rewrite Hg in Hgw; injection Hgw as <-; by split
     |destruct (decide ("is" ∈ split " " line)) as [His|His]; [|done];
      apply is_loop_gateway in Hloop; [|by left];
      rewrite Hloop in Hgw; injection Hgw as <-;
      split; [by intros [? ?]|done]]).
Qed.

Lemma routed_line_gateway_iff_via_witness :
  ∃ st' r,
    quagga_line initial_state Fixtures.ospf_line = Ret (st', r) ∧
    (is_Some (GW r) ↔ "via" ∈ split " " Fixtures.ospf_line).
Proof.
  destruct (quagga_line initial_state Fixtures.ospf_line)
    as [[st' r]|e] eqn:Hline; [|vm_compute in Hline; discriminate Hline].
  exists st', r. split; [reflexivity|].
  apply (routed_line_gateway_iff_via _ _ _ _ (Some "O") Hline).
  - vm_compute. reflexivity.
  - intros H. discriminate H.
Defined.

End QuaggaLineFacts.

(** ** Topology data: the lookups *)
Section CoreNetDataLookups.
Import CoreNetData Props Derived.

Lemma global_name_of_sound adapters l g :
  global_name_of adapters l = Some g → (g, l) ∈ adapters.
Proof.
  induction adapters as [|[g' l'] adapters IH]; simpl; [done|].
  destruct (decide (l' = l)) as [->|_].
  - intros [= ->]. apply list_elem_of_here.
  - intros H. by apply list_elem_of_further, IH.
Qed.

Lemma local_name_of_sound adapters g l :
  local_name_of adapters g = Some l → (g, l) ∈ adapters.
Proof.
  induction adapters as [|[g' l'] adapters IH]; simpl; [done|].
  destruct (decide (g' = g)) as [->|_].
  - intros [= ->]. apply list_elem_of_here.
  - intros H. by apply list_elem_of_further, IH.
Qed.

Lemma local_name_of_unique adapters g l :
  NoDup adapters.*1 → (g, l) ∈ adapters → local_name_of adapters g = Some l.
Proof.
  induction adapters as [|[g' l'] adapters IH]; simpl; intros Hnd Hin.
  { by apply elem_of_nil in Hin. }
  apply NoDup_cons in Hnd as [Hfresh Hnd].
  apply elem_of_cons in Hin as [[= -> ->]|Hin].
  - by rewrite decide_True.
  - rewrite decide_False; [by apply IH|].
    intros ->. apply Hfresh. apply list_elem_of_fmap. by exists (g, l).
Qed.

Lemma global_name_of_unique adapters g l :
  NoDup adapters.*2 → (g, l) ∈ adapters → global_name_of adapters l = Some g.
Proof.
  induction adapters as [|[g' l'] adapters IH]; simpl; intros Hnd Hin.
  { by apply elem_of_nil in Hin. }
  apply NoDup_cons in Hnd as [Hfresh Hnd].
  apply elem_of_cons in Hin as [[= -> ->]|Hin].
  - by rewrite decide_True.
  - rewrite decide_False; [by apply IH|].
    intros ->. apply Hfresh. apply list_elem_of_fmap. by exists (g, l).
Qed.

Lemma local_name_of_None adapters g :
  local_name_of adapters g = None ↔ g ∉ adapters.*1.
Proof.
  induction adapters as [|[g' l'] adapters IH]; simpl.
  - split; [intros _; apply not_elem_of_nil|done].
  - rewrite not_elem_of_cons. destruct (decide (g' = g)) as [->|Hne].
    + split; [done|]. by intros [? _].
    + rewrite IH. split; [by split|by intros [_ ?]].
Qed.

(** X17.  On a host, the two name lookups are inverse to each other: when
    the global names of the host's adapters are distinct, the global name
    found for a local name leads back to that local name; when the local
    names are distinct, the local name found for a global name leads back
    to that global name. *)
Theorem local_and_global_names_round_trip self node_name adapters :
  dict_get (_mappings self) node_name = Some adapters →
  (NoDup adapters.*1 →
   ∀ loc glob, get_nodes_global_name self node_name loc = Some glob →
               get_nodes_local_name self node_name glob = Some loc) ∧
  (NoDup adapters.*2 →
   ∀ glob loc, get_nodes_local_name self node_name glob = Some loc →
               get_nodes_global_name self node_name loc = Some glob).
Proof.
  intros Hget. unfold get_nodes_global_name, get_nodes_local_name.
  rewrite Hget. split; intros Hnd a b H.
  - by apply local_name_of_unique, global_name_of_sound.
  - by apply global_name_of_unique, local_name_of_sound.
Qed.

Lemma local_and_global_names_round_trip_witness :
  get_nodes_global_name Fixtures.line_core "r1" "eth1" = Some "g12" ∧
  get_nodes_local_name Fixtures.line_core "r1" "g12" = Some "eth1".
Proof.
  destruct (local_and_global_names_round_trip Fixtures.line_core "r1"
              [("g10", "eth0"); ("g12", "eth1")] eq_refl) as [Hlg _].
  assert (get_nodes_global_name Fixtures.line_core "r1" "eth1" = Some "g12")
    as Hglob by reflexivity.
  split; [exact Hglob|]. apply Hlg; [|exact Hglob].
  apply (bool_decide_unpack _). vm_compute. exact I.
Defined.

Lemma device_of_sound mappings g h l :
  device_of mappings g = Some (h, l) →
  ∃ adapters, (h, adapters) ∈ mappings ∧ local_name_of adapters g = Some l.
Proof.
  induction mappings as [|[h' adapters] mappings IH]; simpl; [done|].
  destruct (local_name_of adapters g) as [l'|] eqn:Hloc.
  - intros [= -> ->]. exists adapters. split; [apply list_elem_of_here|done].
  - intros H. destruct (IH H) as (ads & Hin & Hl).
    exists ads. split; [by apply list_elem_of_further|done].
Qed.

Lemma device_of_None mappings g :
  device_of mappings g = None ↔
  ∀ h adapters, (h, adapters) ∈ mappings → g ∉ adapters.*1.
Proof.
  induction mappings as [|[h' adapters] mappings IH]; simpl.
  - split; [|done]. intros _ h ads Hin. by apply elem_of_nil in Hin.
  - destruct (local_name_of adapters g) as [l'|] eqn:Hloc.
    + split; [done|]. intros Hall.
      assert (g ∉ adapters.*1) as Hnot by (eapply Hall, list_elem_of_here).
      apply local_name_of_None in Hnot. congruence.
    + rewrite IH. apply local_name_of_None in Hloc. split.
      * intros Hall h ads Hin.
        apply elem_of_cons in Hin as [[= -> ->]|Hin]; [done|by eapply Hall].
      * intros Hall h ads Hin. eapply Hall. by apply list_elem_of_further.
Qed.

Lemma dict_get_unique {V} (d : list (string * V)) k v :
  NoDup d.*1 → (k, v) ∈ d → dict_get d k = Some v.
Proof.
  induction d as [|[k' v'] d IH]; simpl; intros Hnd Hin.
  { by apply elem_of_nil in Hin. }
  apply NoDup_cons in Hnd as [Hfresh Hnd].
  apply elem_of_cons in Hin as [[= -> ->]|Hin].
  - by rewrite decide_True.
  - rewrite decide_False; [by apply IH|].
    intros ->. apply Hfresh. apply list_elem_of_fmap. by exists (k, v).
Qed.

(** X18.  The owner of a global adapter name: an answer [(hostname,
    local)] names a host of the topology that lists the adapter under that
    local name; the answer is [None] exactly when no host lists the name;
    and when hostnames are distinct the answer agrees with
    [get_nodes_local_name] on that host. *)
Theorem get_device_from_globname_owner self glob :
  (∀ hostname loc,
     _get_device_from_globname self glob = Some (hostname, loc) →
     (∃ adapters, (hostname, adapters) ∈ _mappings self ∧
                  (glob, loc) ∈ adapters) ∧
     (NoDup (_mappings self).*1 →
      get_nodes_local_name self hostname glob = Some loc)) ∧
  (_get_device_from_globname self glob = None ↔
   ∀ hostname adapters, (hostname, adapters) ∈ _mappings self →
                        glob ∉ adapters.*1).
Proof.
  unfold _get_device_from_globname. split; [|apply device_of_None].
  intros h l H. apply device_of_sound in H as (ads & Hin & Hl). split.
  - exists ads. split; [done|]. by apply local_name_of_sound.
  - intros Hnd. unfold get_nodes_local_name.
    by rewrite (dict_get_unique _ h ads).
Qed.

Lemma get_device_from_globname_owner_witness :
  _get_device_from_globname Fixtures.line_core "g21" = Some ("r2", "eth0") ∧
  get_nodes_local_name Fixtures.line_core "r2" "g21" = Some "eth0" ∧
  _get_device_from_globname Fixtures.line_core "g99" = None.
Proof.
  destruct (get_device_from_globname_owner Fixtures.line_core "g21")
    as [Hsome _].
  destruct (get_device_from_globname_owner Fixtures.line_core "g99")
    as [_ Hnone].
  split; [reflexivity|]. split.
  - apply (Hsome "r2" "eth0" eq_refl).
    apply (bool_decide_unpack _). vm_compute. exact I.
  - apply Hnone. intros h ads Hin.
    unfold Fixtures.line_core in Hin. simpl in Hin.
    rewrite !elem_of_cons, elem_of_nil in Hin.
    destruct Hin as [[= -> ->]|[[= -> ->]|[[= -> ->]|[[= -> ->]|[]]]]];
      intros Hc; apply (bool_decide_pack _) in Hc; vm_compute in Hc; exact Hc.
Defined.

End CoreNetDataLookups.

(** ** Topology data: validation and links *)
Section CoreNetDataLinks.
Import CoreNetData Props Derived.

Lemma validate_bridges_log self bridges :
  (length (validate_bridges self bridges) ≤ 1)%nat ∧
  (validate_bridges self bridges = [] ↔ Forall (bridge_ok self) bridges).
Proof.
  induction bridges as [|[n [a b]] bridges [IHlen IHok]]; simpl.
  { split; [lia|]. split; [by constructor|done]. }
  rewrite Forall_cons. unfold bridge_ok at 1. simpl.
  unfold any_name. simpl.
  destruct (decide (a = EmptyString)) as [->|Ha];
    [destruct (decide (b = EmptyString)) as [->|Hb]|].
  - simpl. split; [lia|]. split; [done|]. by intros [[[?|?] _] _].
  - rewrite bool_decide_true by done.
    rewrite (bool_decide_false (b = EmptyString)) by done. simpl.
    destruct (_get_device_from_globname self "") as [da|];
      [destruct (_get_device_from_globname self b) as [db|]|].
    + split; [done|]. rewrite IHok. split; [|by intros [_ ?]].
      intros Hall. split; [|done]. split; [by right|]. by split; eexists.
    + simpl. split; [lia|]. split; [done|]. intros [(_ & _ & [? ?]) _]. done.
    + simpl. split; [lia|]. split; [done|]. intros [(_ & [? ?] & _) _]. done.
  - rewrite (bool_decide_false (a = EmptyString)) by done. simpl.
    destruct (_get_device_from_globname self a) as [da|];
      [destruct (_get_device_from_globname self b) as [db|]|].
    + split; [done|]. rewrite IHok. split; [|by intros [_ ?]].
      intros Hall. split; [|done]. split; [by left|]. by split; eexists.
    + simpl. split; [lia|]. split; [done|]. intros [(_ & _ & [? ?]) _]. done.
    + simpl. split; [lia|]. split; [done|]. intros [(_ & [? ?] & _) _]. done.
Qed.

Lemma validate_bridges_ok self bridge rest :
  bridge_ok self bridge →
  validate_bridges self (bridge :: rest) = validate_bridges self rest.
Proof.
  destruct bridge as [n [a b]]. unfold bridge_ok. simpl.
  intros (Hany & [da Ha] & [db Hb]). rewrite Ha, Hb.
  unfold any_name. simpl.
  destruct Hany as [Hne|Hne]; rewrite (bool_decide_false _ Hne); simpl;
    [done|by rewrite orb_true_r].
Qed.

Lemma validate_bridges_bad self bridge rest :
  ¬ bridge_ok self bridge →
  validate_bridges self (bridge :: rest) = [bridge_error bridge].
Proof.
  destruct bridge as [n [a b]]. unfold bridge_ok, bridge_error. simpl.
  intros Hbad. unfold any_name. simpl.
  destruct (decide (a = EmptyString ∧ b = EmptyString)) as [[-> ->]|Hne];
    [done|].
  assert (negb (bool_decide (a = EmptyString)) ||
          negb (bool_decide (b = EmptyString)) = true) as ->.
  { destruct (decide (a = EmptyString)) as [->|Ha].
    - rewrite (bool_decide_false (b = EmptyString)); [done|].
      intros ->. by apply Hne.
    - by rewrite (bool_decide_false _ Ha). }
  simpl.
  destruct (_get_device_from_globname self a) as [da|]; [|done].
  destruct (_get_device_from_globname self b) as [db|]; [|done].
  exfalso. apply Hbad. split; [|by split; eexists].
  destruct (decide (a = EmptyString)) as [->|Ha]; [right|by left].
  intros ->. by apply Hne.
Qed.

Lemma validate_bridges_first self bridge rest : ∀ good,
  Forall (bridge_ok self) good →
  ¬ bridge_ok self bridge →
  validate_bridges self (good ++ bridge :: rest) = [bridge_error bridge].
Proof.
  induction good as [|g good IH]; intros Hgood Hbad.
  - by apply validate_bridges_bad.
  - apply Forall_cons in Hgood as [Hg Hgood].
    change ((g :: good) ++ bridge :: rest)
      with (g :: (good ++ bridge :: rest)).
    rewrite validate_bridges_ok by done. by apply IH.
Qed.

(** X19.  [_validate] logs nothing exactly when every bridge has a name
    that is not empty and both its names are owned by a host.  Otherwise it
    logs one error, and it is the error of the first bridge that fails, in
    the order of the dictionary: what the log holds is fixed by that bridge
    alone, whatever bridges, sound or not, come after it. *)
Theorem validate_log self :
  (length (_validate self) ≤ 1)%nat ∧
  (_validate self = [] ↔ Forall (bridge_ok self) (_bridges self)) ∧
  (∀ good bridge rest,
     _bridges self = good ++ bridge :: rest →
     Forall (bridge_ok self) good →
     ¬ bridge_ok self bridge →
     _validate self = [bridge_error bridge]).
Proof.
  split; [apply validate_bridges_log|]. split; [apply validate_bridges_log|].
  intros good bridge rest Hsplit Hgood Hbad. unfold _validate.
  rewrite Hsplit. by apply validate_bridges_first.
Qed.

Lemma adapter_names_of_sound self dst adapters ga la gb lb :
  adapter_names_of self dst adapters = Some ((ga, la), (gb, lb)) →
  (ga, la) ∈ adapters ∧ _get_peer_adapter self ga = Some gb ∧
  lb = get_nodes_local_name self dst gb ∧
  ∃ rl, _get_device_from_globname self gb = Some (dst, rl).
Proof.
  induction adapters as [|[g l] adapters IH]; simpl; [done|].
  intros H.
  assert (adapter_names_of self dst adapters = Some ((ga, la), (gb, lb)) →
          (ga, la) ∈ (g, l) :: adapters ∧
          _get_peer_adapter self ga = Some gb ∧
          lb = get_nodes_local_name self dst gb ∧
          ∃ rl, _get_device_from_globname self gb = Some (dst, rl)) as Hrest.
  { intros Hr. destruct (IH Hr) as (? & ? & ? & ?).
    split; [by apply list_elem_of_further|done]. }
  destruct (_get_peer_adapter self g) as [rg|] eqn:Hpeer; [|by apply Hrest].
  destruct (_get_device_from_globname self rg) as [[rh rl]|] eqn:Hdev;
    [|by apply Hrest].
  destruct (decide (rh ≠ dst)) as [?|Heq]; [by apply Hrest|].
  apply dec_stable in Heq as ->. injection H as <- <- <- <-.
  split; [apply list_elem_of_here|]. split; [done|]. split; [done|by eexists].
Qed.

Lemma adapter_names_of_complete self dst adapters ga la gb rl :
  (ga, la) ∈ adapters → _get_peer_adapter self ga = Some gb →
  _get_device_from_globname self gb = Some (dst, rl) →
  is_Some (adapter_names_of self dst adapters).
Proof.
  induction adapters as [|[g l] adapters IH]; intros Hin Hpeer Hdev.
  { by apply elem_of_nil in Hin. }
  simpl.
  destruct (_get_peer_adapter self g) as [rg|] eqn:Hpeer'.
  - destruct (_get_device_from_globname self rg) as [[rh rl']|] eqn:Hdev'.
    + destruct (decide (rh ≠ dst)); [|by eexists].
      apply elem_of_cons in Hin as [[= -> ->]|Hin]; [congruence|by apply IH].
    + apply elem_of_cons in Hin as [[= -> ->]|Hin]; [congruence|by apply IH].
  - apply elem_of_cons in Hin as [[= -> ->]|Hin]; [congruence|by apply IH].
Qed.

(** X20.  What [get_adapter_names] returns is a link from the source to
    the destination: the first pair is an adapter of the source host, the
    second global name is its peer on a bridge, that peer is owned by the
    destination host, and, hostnames being distinct, the second local name
    is the one the destination has for it and never [None]. *)
Theorem get_adapter_names_sound self src dst ga la gb lb :
  get_adapter_names self src dst = Some ((ga, la), (gb, lb)) →
  ∃ rl, links_to self src dst ga la gb rl ∧
        (NoDup (_mappings self).*1 → lb = Some rl).
Proof.
  unfold get_adapter_names, links_to. intros H.
  destruct (dict_get (_mappings self) src) as [adapters|] eqn:Hget; [|done].
  apply adapter_names_of_sound in H as (Hin & Hpeer & -> & rl & Hdev).
  exists rl. split; [by exists adapters|].
  intros Hnd. unfold _get_device_from_globname in Hdev.
  apply device_of_sound in Hdev as (ads & Hads & Hl).
  unfold get_nodes_local_name. by rewrite (dict_get_unique _ dst ads).
Qed.

Lemma get_adapter_names_sound_witness :
  get_adapter_names Fixtures.line_core "r1" "r2" =
    Some (("g12", "eth1"), ("g21", Some "eth0")) ∧
  ∃ rl, links_to Fixtures.line_core "r1" "r2" "g12" "eth1" "g21" rl ∧
        (NoDup (_mappings Fixtures.line_core).*1 → Some "eth0" = Some rl).
Proof.
  assert (get_adapter_names Fixtures.line_core "r1" "r2" =
          Some (("g12", "eth1"), ("g21", Some "eth0"))) as H by reflexivity.
  split; [exact H|]. exact (get_adapter_names_sound _ _ _ _ _ _ _ H).
Defined.

(** X21.  [get_adapter_names] misses no link: it finds adapters whenever
    some adapter of the source host has a peer owned by the destination
    host, so [None] means that the source is unknown or that no bridge
    joins the two hosts. *)
Theorem get_adapter_names_complete self src dst ga la gb rl :
  links_to self src dst ga la gb rl →
  is_Some (get_adapter_names self src dst).
Proof.
  intros (adapters & Hget & Hin & Hpeer & Hdev). unfold get_adapter_names.
  rewrite Hget. by eapply adapter_names_of_complete.
Qed.

Lemma get_adapter_names_complete_witness :
  is_Some (get_adapter_names Fixtures.line_core "r2" "r1").
Proof.
  apply (get_adapter_names_complete Fixtures.line_core "r2" "r1"
           "g21" "eth0" "g12" "eth1").
  exists [("g21", "eth0"); ("g23", "eth1")].
  split; [reflexivity|]. split; [apply list_elem_of_here|].
  split; reflexivity.
Defined.

Lemma remote_peer_of_sound self intf adapters h rl :
  remote_peer_of self intf adapters = Some (h, rl) →
  ∃ g gb, (g, intf) ∈ adapters ∧ _get_peer_adapter self g = Some gb ∧
          _get_device_from_globname self gb = Some (h, rl).
Proof.
  induction adapters as [|[g l] adapters IH]; simpl; [done|]. intros H.
  assert (remote_peer_of self intf adapters = Some (h, rl) →
          ∃ g0 gb, (g0, intf) ∈ (g, l) :: adapters ∧
                   _get_peer_adapter self g0 = Some gb ∧
                   _get_device_from_globname self gb = Some (h, rl)) as Hrest.
  { intros Hr. destruct (IH Hr) as (g0 & gb & ? & ? & ?).
    exists g0, gb. split; [by apply list_elem_of_further|done]. }
  destruct (decide (l ≠ intf)) as [?|Heq]; [by apply Hrest|].
  apply dec_stable in Heq as ->.
  destruct (_get_peer_adapter self g) as [rg|] eqn:Hpeer; [|by apply Hrest].
  destruct (_get_device_from_globname self rg) as [rd|] eqn:Hdev;
    [|by apply Hrest].
  injection H as ->. exists g, rg. split; [apply list_elem_of_here|done].
Qed.

(** X22.  The host that [get_remote_peer] finds behind a local interface
    is joined to the source by a bridge from an adapter with that local
    name, and [get_adapter_names] between the two hosts then finds
    adapters as well. *)
Theorem get_remote_peer_is_linked self src intf h rl :
  get_remote_peer self src intf = Some (h, rl) →
  (∃ g gb, links_to self src h g intf gb rl) ∧
  is_Some (get_adapter_names self src h).
Proof.
  unfold get_remote_peer. intros H.
  destruct (dict_get (_mappings self) src) as [adapters|] eqn:Hget; [|done].
  apply remote_peer_of_sound in H as (g & gb & Hin & Hpeer & Hdev).
  split.
  - exists g, gb, adapters. by repeat split.
  - unfold get_adapter_names. rewrite Hget.
    by eapply adapter_names_of_complete.
Qed.

Lemma get_remote_peer_is_linked_witness :
  get_remote_peer Fixtures.line_core "r2" "eth1" = Some ("h2", "eth0") ∧
  is_Some (get_adapter_names Fixtures.line_core "r2" "h2").
Proof.
  assert (get_remote_peer Fixtures.line_core "r2" "eth1" =
          Some ("h2", "eth0")) as H by reflexivity.
  split; [exact H|]. exact (proj2 (get_remote_peer_is_linked _ _ _ _ _ H)).
Defined.

Lemma peer_of_sound bridges g p :
  peer_of bridges g = Some p →
  ∃ n, (n, (g, p)) ∈ bridges ∨ (n, (p, g)) ∈ bridges.
Proof.
  induction bridges as [|[n [a b]] bridges IH]; simpl; [done|].
  destruct (decide (a = g)) as [->|_].
  { intros [= ->]. exists n. left. apply list_elem_of_here. }
  destruct (decide (b = g)) as [->|_].
  { intros [= ->]. exists n. right. apply list_elem_of_here. }
  intros H. destruct (IH H) as [n' [?|?]]; exists n';
    [left|right]; by apply list_elem_of_further.
Qed.

Lemma peer_of_None bridges g :
  peer_of bridges g = None → g ∉ link_ends bridges.
Proof.
  induction bridges as [|[n [a b]] bridges IH]; simpl.
  { intros _. apply not_elem_of_nil. }
  destruct (decide (a = g)); [done|]. destruct (decide (b = g)); [done|].
  intros H. rewrite !not_elem_of_cons. split_and!; [done..|]. by apply IH.
Qed.

(** X23.  In any topology, with or without repeated names: the peer found
    for an adapter shares a bridge with it, and no peer is found exactly
    when the adapter is on no bridge. *)
Theorem get_peer_adapter_on_a_bridge self glob :
  (∀ peer, _get_peer_adapter self glob = Some peer →
     ∃ n, (n, (glob, peer)) ∈ _bridges self ∨
          (n, (peer, glob)) ∈ _bridges self) ∧
  (_get_peer_adapter self glob = None ↔ glob ∉ link_ends (_bridges self)).
Proof.
  unfold _get_peer_adapter. split.
  - intros peer. apply peer_of_sound.
  - split; [apply peer_of_None|apply peer_of_absent].
Qed.

End CoreNetDataLinks.

(** ** Residual path bandwidth: segments *)
Section SegmentFacts.
Import PathLoad Props Derived.
Context {endpoint : Type}.
Variable nm : NetworkMap endpoint.

Lemma residual_loop_view path k : ∀ i acc rest,
  drop i path = rest → length rest = S k →
  residual_bws_loop nm path i (S i) k acc = residuals_of nm (segments rest) acc.
Proof.
  induction k as [|k IH]; intros i acc rest Hdrop Hlen.
  - by destruct rest as [|a [|b tl]].
  - destruct rest as [|a [|b tl]]; try done.
    change (segments (a :: b :: tl)) with ((a, b) :: segments (b :: tl)).
    apply drop_cons_lookup in Hdrop as [Ha Hdrop].
    apply drop_cons_lookup in Hdrop as Hb'. destruct Hb' as [Hb _].
    cbn [residual_bws_loop residuals_of]. unfold path_get. rewrite Ha, Hb.
    cbn [mbind result_bind]. unfold segment_outcome. cbn [fst snd].
    destruct (get_link_capacity nm a b) as [[cap|]|e];
      cbn [mbind result_bind]; [|done..].
    unfold user_to_user.
    destruct (decide (type nm a = "user" ∧ type nm b = "user")) as [Hu|Hu].
    { apply (IH (S i) _ (b :: tl)); [done|simpl in *; lia]. }
    unfold segment_residual, segment_load, connecting_adapters, user_to_user.
    cbn [fst snd].
    destruct (CoreNetData.get_adapter_names (core_data nm) (name nm a)
                (name nm b)) as [[[ag al] [bg bl]]|]; [|done].
    rewrite (decide_False (P := type nm a = "user" ∧ type nm b = "user"))
      by done.
    rewrite <- (IH (S i) _ (b :: tl)) by (done || simpl in *; lia).
    destruct (decide (type nm b = "user")).
    + by destruct (get_adapter_tx_load nm a (Some al)).
    + by destruct (get_adapter_rx_load nm b bl).
Qed.

Lemma get_residual_bw_view path :
  path ≠ [] →
  get_residual_bw_for_path nm path =
  r ← residuals_of nm (segments path) [];
  match r with
  | None => Ret None
  | Some residual_bws => Some <$> min_list residual_bws
  end.
Proof.
  intros Hne. unfold get_residual_bw_for_path.
  destruct path as [|a tl]; [done|].
  destruct (Z.ltb_spec (Z.of_nat (length (a :: tl)) - 1) 0) as [Hlt|_].
  { simpl in Hlt. lia. }
  rewrite (residual_loop_view _ _ 0 [] (a :: tl)); [done..|].
  simpl. lia.
Qed.

Lemma residuals_of_app segs1 segs2 : ∀ acc,
  residuals_of nm (segs1 ++ segs2) acc =
  r ← residuals_of nm segs1 acc;
  match r with
  | None => Ret None
  | Some l => residuals_of nm segs2 l
  end.
Proof.
  induction segs1 as [|seg segs1 IH]; intros acc; simpl; [done|].
  destruct (segment_outcome nm seg) as [[r|]|e]; simpl; [|done..].
  apply IH.
Qed.

Lemma residuals_of_acc segs : ∀ acc,
  residuals_of nm segs acc =
  r ← residuals_of nm segs [];
  Ret (match r with None => None | Some l => Some (acc ++ l) end).
Proof.
  induction segs as [|seg segs IH]; intros acc; simpl.
  - by rewrite app_nil_r.
  - destruct (segment_outcome nm seg) as [[r|]|e]; simpl; [|done..].
    rewrite IH, (IH [r]).
    destruct (residuals_of nm segs []) as [[l|]|e]; simpl; [|done..].
    by rewrite <- app_assoc.
Qed.

Lemma residuals_of_length segs : ∀ acc l,
  residuals_of nm segs acc = Ret (Some l) →
  length l = (length acc + length segs)%nat.
Proof.
  induction segs as [|seg segs IH]; intros acc l H; simpl in H.
  - injection H as <-. simpl. lia.
  - destruct (segment_outcome nm seg) as [[r|]|e]; simpl in H; [|done..].
    apply IH in H. rewrite H, length_app. simpl. lia.
Qed.

Lemma segments_app (p1 : list node) x p2 :
  segments (p1 ++ x :: p2) = segments (p1 ++ [x]) ++ segments (x :: p2).
Proof.
  induction p1 as [|a p1 IH]; [done|].
  destruct p1 as [|b p1].
  - reflexivity.
  - change (segments ((a :: b :: p1) ++ x :: p2))
      with ((a, b) :: segments ((b :: p1) ++ x :: p2)).
    change (segments ((a :: b :: p1) ++ [x]))
      with ((a, b) :: segments ((b :: p1) ++ [x])).
    by rewrite IH.
Qed.

Lemma foldl_min_shift l : ∀ a y,
  foldl Z.min (Z.min a y) l = Z.min a (foldl Z.min y l).
Proof.
  induction l as [|z l IH]; intros a y; simpl; [done|].
  rewrite (IH (Z.min a y) z), (IH y z). lia.
Qed.

Lemma min_list_app x l1 y l2 :
  min_list ((x :: l1) ++ y :: l2) =
  Ret (Z.min (foldl Z.min x l1) (foldl Z.min y l2)).
Proof.
  simpl. rewrite foldl_app. simpl. by rewrite foldl_min_shift.
Qed.

(** X24.  The cost of a path through a device is the smaller of the costs
    of its two parts: what [get_residual_bw_for_path] gives on a path
    [p1 ++ x :: p2], both [p1] and [p2] having a device, is what it gives on
    the part up to [x] and then on the part from [x], with the minimum of
    the two costs, [None] when either part has none, and the exception of
    the first part that raises. *)
Theorem residual_bw_of_joined_paths p1 x p2 :
  p1 ≠ [] → p2 ≠ [] →
  get_residual_bw_for_path nm (p1 ++ x :: p2) =
  r1 ← get_residual_bw_for_path nm (p1 ++ [x]);
  match r1 with
  | None => Ret None
  | Some c1 =>
      r2 ← get_residual_bw_for_path nm (x :: p2);
      Ret (match r2 with None => None | Some c2 => Some (Z.min c1 c2) end)
  end.
Proof.
  intros H1 H2.
  rewrite !get_residual_bw_view by (by destruct p1).
  rewrite segments_app, residuals_of_app.
  destruct (residuals_of nm (segments (p1 ++ [x])) []) as [[l1|]|e] eqn:Hl1;
    cbn [mbind result_bind]; [|done..].
  apply residuals_of_length in Hl1 as Hlen1.
  assert (length (segments (p1 ++ [x])) ≠ 0%nat) as Hs1.
  { destruct p1 as [|a [|b p1]]; done. }
  destruct l1 as [|y1 l1]; [simpl in Hlen1; lia|].
  cbn [min_list fmap result_fmap mbind result_bind].
  rewrite residuals_of_acc.
  destruct (residuals_of nm (segments (x :: p2)) []) as [[l2|]|e] eqn:Hl2;
    cbn [mbind result_bind]; [|done..].
  apply residuals_of_length in Hl2 as Hlen2.
  assert (length (segments (x :: p2)) ≠ 0%nat) as Hs2.
  { destruct p2 as [|b p2]; done. }
  destruct l2 as [|y2 l2]; [simpl in Hlen2; lia|].
  rewrite min_list_app. done.
Qed.

End SegmentFacts.

Lemma residual_bw_of_joined_paths_witness :
  PathLoad.get_residual_bw_for_path Fixtures.line_net
    ([0; 1] ++ 2 :: [3])%nat = Ret (Some 50) ∧
  PathLoad.get_residual_bw_for_path Fixtures.line_net ([0; 1] ++ [2])%nat =
    Ret (Some 50) ∧
  PathLoad.get_residual_bw_for_path Fixtures.line_net (2 :: [3])%nat =
    Ret (Some 70).
Proof.
  pose proof (residual_bw_of_joined_paths Fixtures.line_net
                [0; 1]%nat 2%nat [3]%nat
                ltac:(discriminate) ltac:(discriminate)) as H.
  assert (PathLoad.get_residual_bw_for_path Fixtures.line_net
            ([0; 1] ++ [2])%nat = Ret (Some 50)) as H1
    by (vm_compute; reflexivity).
  assert (PathLoad.get_residual_bw_for_path Fixtures.line_net
            (2 :: [3])%nat = Ret (Some 70)) as H2
    by (vm_compute; reflexivity).
  split; [|by split].
  etransitivity; [exact H|]. vm_compute. reflexivity.
Defined.

(** ** Residual path bandwidth: lower loads *)
Section LowerLoads.
Import PathLoad Props Derived.
Context {endpoint : Type}.
Variables nm nm' : NetworkMap endpoint.
Hypothesis Htopo : same_topology nm nm'.
Hypothesis Hloads : loads_lowered nm' nm.

Lemma segment_outcome_lowered seg :
  outcome_le Z.le (segment_outcome nm seg) (segment_outcome nm' seg).
Proof.
  destruct Htopo as (Hname & Htype & Hedges & Hcore).
  unfold segment_outcome, get_link_capacity. rewrite <- Hedges.
  destruct (capacity_of seg.1 seg.2 (get_out_edges nm seg.1)) as [[cap|]|e];
    cbn [mbind result_bind outcome_le]; [|done..].
  unfold user_to_user. rewrite <- !Htype.
  destruct (decide (type nm seg.1 = "user" ∧ type nm seg.2 = "user"));
    [simpl; lia|].
  unfold segment_residual, segment_load, connecting_adapters, user_to_user.
  rewrite <- !Htype, <- !Hname, <- Hcore.
  destruct (CoreNetData.get_adapter_names (core_data nm) (name nm seg.1)
              (name nm seg.2)) as [[[ag al] [bg bl]]|]; [|done].
  rewrite !(decide_False (P := type nm seg.1 = "user" ∧ type nm seg.2 = "user"))
    by done.
  destruct (decide (type nm seg.2 = "user")).
  - destruct (Hloads seg.1 (Some al)) as [Htx _]. unfold lower_load in Htx.
    destruct (get_adapter_tx_load nm' seg.1 (Some al)),
             (get_adapter_tx_load nm seg.1 (Some al)); simpl; try done; lia.
  - destruct (Hloads seg.2 bl) as [_ Hrx]. unfold lower_load in Hrx.
    destruct (get_adapter_rx_load nm' seg.2 bl),
             (get_adapter_rx_load nm seg.2 bl); simpl; try done; lia.
Qed.

Lemma residuals_of_lowered segs : ∀ acc acc',
  Forall2 Z.le acc acc' →
  outcome_le (Forall2 Z.le) (residuals_of nm segs acc)
    (residuals_of nm' segs acc').
Proof.
  induction segs as [|seg segs IH]; intros acc acc' Hacc; simpl; [done|].
  pose proof (segment_outcome_lowered seg) as Hseg.
  destruct (segment_outcome nm seg) as [[r|]|e],
           (segment_outcome nm' seg) as [[r'|]|e']; simpl in *; try done.
  apply IH, Forall2_app; [done|]. by repeat constructor.
Qed.

Lemma foldl_min_le l l' : ∀ x x',
  x ≤ x' → Forall2 Z.le l l' → foldl Z.min x l ≤ foldl Z.min x' l'.
Proof.
  intros x x' Hx Hall. revert x x' Hx.
  induction Hall as [|y y' l l' Hy Hall IH]; intros x x' Hx; simpl; [done|].
  apply IH. lia.
Qed.

(** X25.  With the same devices, edges and CORE data, lowering load samples
    never lowers the cost of a path: where the cost was [c] it is now at
    least [c], where there was none there is still none, and an exception
    stays the same. *)
Theorem lower_load_never_lowers_cost path :
  (∀ c, get_residual_bw_for_path nm path = Ret (Some c) →
     ∃ c', get_residual_bw_for_path nm' path = Ret (Some c') ∧ c ≤ c') ∧
  (get_residual_bw_for_path nm path = Ret None →
     get_residual_bw_for_path nm' path = Ret None) ∧
  (∀ e, get_residual_bw_for_path nm path = Raise e →
     get_residual_bw_for_path nm' path = Raise e).
Proof.
  destruct (decide (path = [])) as [->|Hne]; [by split_and!|].
  rewrite !get_residual_bw_view by done.
  pose proof (residuals_of_lowered (segments path) [] [] (Forall2_nil_2 _ _ _))
    as Hres.
  destruct (residuals_of nm (segments path) []) as [[l|]|e],
           (residuals_of nm' (segments path) []) as [[l'|]|e'];
    simpl in Hres; try done; cbn [mbind result_bind].
  1: { destruct Hres as [|x x' l l' Hx Hall]; simpl; [by split_and!|].
       split_and!; [|done..]. intros c [= <-]. eexists. split; [done|].
       by apply foldl_min_le. }
  all: try subst e'; simpl; split_and!; intros; first [done | discriminate].
Qed.

End LowerLoads.

Section LowerLoadsExample.
Import PathLoad Props Derived.

Lemma lower_load_never_lowers_cost_witness :
  PathLoad.get_residual_bw_for_path loaded_line_net [2; 3]%nat =
    Ret (Some 50) ∧
  ∃ c', PathLoad.get_residual_bw_for_path Fixtures.line_net [2; 3]%nat =
          Ret (Some c') ∧ 50 ≤ c'.
Proof.
  assert (same_topology loaded_line_net Fixtures.line_net) as Htopo.
  { by repeat split. }
  assert (loads_lowered Fixtures.line_net loaded_line_net) as Hloads.
  { intros n l. unfold lower_load. simpl.
    split; destruct (decide _); simpl; lia || done. }
  assert (PathLoad.get_residual_bw_for_path loaded_line_net [2; 3]%nat =
          Ret (Some 50)) as H by (vm_compute; reflexivity).
  split; [exact H|].
  exact (proj1 (lower_load_never_lowers_cost loaded_line_net Fixtures.line_net
                  Htopo Hloads [2; 3]%nat) 50 H).
Defined.

End LowerLoadsExample.

(** ** The cost map *)
Section CostMapFacts.
Import PathLoad Props Derived.
Context {endpoint : Type}.
Variable nm : NetworkMap endpoint.
Variable parser : IPAddrParser endpoint.

Lemma cost_dsts_value src dsts : ∀ this_src m k v,
  cost_dsts nm parser src dsts this_src = Ret m →
  m !! k = Some v →
  this_src !! k = Some v ∨
  ∃ dst, dst ∈ dsts ∧ from_object parser dst = k ∧
    get_residual_bw_for_path nm (dev_to_dev_iterator nm src dst) =
      Ret (Some v).
Proof.
  induction dsts as [|dst dsts IH]; intros this_src m k v H Hk; simpl in H.
  - injection H as <-. by left.
  - step_bind H as rbw Hrbw.
    destruct rbw as [rbw|];
      [|destruct (IH _ _ _ _ H Hk) as [?|(dst' & ? & ? & ?)];
        [by left
        |right; exists dst'; split; [by apply list_elem_of_further|done]]].
    destruct (IH _ _ _ _ H Hk) as [Hins|(dst' & ? & ? & ?)].
    + destruct (decide (from_object parser dst = k)) as [Heq|Hne].
      * rewrite Heq, lookup_insert_eq in Hins. injection Hins as ->.
        right. exists dst. split; [apply list_elem_of_here|done].
      * left. by rewrite lookup_insert_ne in Hins.
    + right. exists dst'. split; [by apply list_elem_of_further|done].
Qed.

Lemma any_key_lookup (d : gmap string Z) k v :
  d !! k = Some v → k ≠ EmptyString → any_key d = true.
Proof.
  intros Hk Hne. unfold any_key. apply bool_decide_eq_true.
  apply Exists_exists. exists k. split; [|done].
  apply elem_of_elements, elem_of_dom. by eexists.
Qed.

(** X26.  Every entry of the cost map of [get_cost] is the cost of a
    requested pair: an inner dictionary is never empty, and a value under
    the keys of a source and a destination is what
    [get_residual_bw_for_path] returned for the path between a requested
    source and a requested destination with these keys. *)
Theorem get_cost_entries_are_costs in_srcs in_dsts costmap ks this_src :
  get_cost nm parser in_srcs in_dsts = Ret costmap →
  costmap !! ks = Some this_src →
  this_src ≠ ∅ ∧
  ∀ kd v, this_src !! kd = Some v →
    ∃ s d, s ∈ in_srcs ∧ d ∈ in_dsts ∧
      key_of parser s = ks ∧ key_of parser d = kd ∧
      get_residual_bw_for_path nm (path_of nm parser s d) = Ret (Some v).
Proof.
  unfold get_cost, key_of, path_of. intros Hcost Hks.
  apply (cost_srcs_lookup _ _ _ _ _ _ _ _ Hcost) in Hks
    as [Hempty|(src & Hsrc & Hkey & Hdsts & Hany)];
    [by rewrite lookup_empty in Hempty|].
  apply list_elem_of_fmap in Hsrc as (s & -> & Hs). split.
  - intros ->. apply any_key_has_key in Hany as [k [v Hk]].
    by rewrite lookup_empty in Hk.
  - intros kd v Hkd.
    destruct (cost_dsts_value _ _ _ _ _ _ Hdsts Hkd)
      as [Hempty|(dst & Hdst & Hkeyd & Hres)];
      [by rewrite lookup_empty in Hempty|].
    apply list_elem_of_fmap in Hdst as (d & -> & Hd).
    by exists s, d.
Qed.

Lemma cost_dsts_complete src dsts k v :
  (∀ dst, dst ∈ dsts → from_object parser dst = k →
     get_residual_bw_for_path nm (dev_to_dev_iterator nm src dst) =
       Ret (Some v)) →
  ∀ this_src m,
    (this_src !! k = Some v ∨ ∃ dst, dst ∈ dsts ∧ from_object parser dst = k) →
    cost_dsts nm parser src dsts this_src = Ret m →
    m !! k = Some v.
Proof.
  induction dsts as [|dst dsts IH]; intros Hall this_src m Hor H; simpl in H.
  - injection H as <-. destruct Hor as [?|(dst & Hin & _)]; [done|].
    by apply elem_of_nil in Hin.
  - assert (∀ dst', dst' ∈ dsts → from_object parser dst' = k →
              get_residual_bw_for_path nm (dev_to_dev_iterator nm src dst') =
                Ret (Some v)) as Hall'.
    { intros dst' Hin. apply Hall. by apply list_elem_of_further. }
    step_bind H as rbw Hrbw.
    destruct (decide (from_object parser dst = k)) as [Heq|Hne].
    + rewrite (Hall dst (list_elem_of_here _ _) Heq) in Hrbw.
      injection Hrbw as <-. apply (IH Hall' _ _) in H; [done|].
      left. by rewrite Heq, lookup_insert_eq.
    + assert (this_src !! k = Some v ∨
              ∃ dst', dst' ∈ dsts ∧ from_object parser dst' = k) as Hor'.
      { destruct Hor as [?|(dst' & Hin & Hk)]; [by left|]. right.
        exists dst'. apply elem_of_cons in Hin as [->|Hin]; [done|by split]. }
      destruct rbw as [rbw|]; [|by apply (IH Hall' _ _ Hor' H)].
      apply (IH Hall' _ _) in H; [done|].
      destruct Hor' as [Hl|Hr]; [left; by rewrite lookup_insert_ne|by right].
Qed.

Lemma cost_srcs_each_returns srcs dsts src : ∀ costmap cm,
  cost_srcs nm parser srcs dsts costmap = Ret cm → src ∈ srcs →
  ∃ m, cost_dsts nm parser src dsts ∅ = Ret m.
Proof.
  induction srcs as [|src' srcs IH]; intros costmap cm H Hin.
  { by apply elem_of_nil in Hin. }
  simpl in H. step_bind H as this_src Hthis.
  apply elem_of_cons in Hin as [->|Hin]; [by eexists|].
  destruct (any_key this_src); by eapply IH.
Qed.

Lemma cost_srcs_complete srcs dsts ks m0 :
  (∀ src, src ∈ srcs → from_object parser src = ks →
     cost_dsts nm parser src dsts ∅ = Ret m0) →
  any_key m0 = true →
  ∀ costmap cm,
    (costmap !! ks = Some m0 ∨ ∃ src, src ∈ srcs ∧ from_object parser src = ks) →
    cost_srcs nm parser srcs dsts costmap = Ret cm →
    cm !! ks = Some m0.
Proof.
  intros Hall Hany. induction srcs as [|src srcs IH]; intros costmap cm Hor H;
    simpl in H.
  - injection H as <-. destruct Hor as [?|(src & Hin & _)]; [done|].
    by apply elem_of_nil in Hin.
  - assert (∀ src', src' ∈ srcs → from_object parser src' = ks →
              cost_dsts nm parser src' dsts ∅ = Ret m0) as Hall'.
    { intros src' Hin. apply Hall. by apply list_elem_of_further. }
    step_bind H as this_src Hthis.
    destruct (decide (from_object parser src = ks)) as [Heq|Hne].
    + rewrite (Hall src (list_elem_of_here _ _) Heq) in Hthis.
      injection Hthis as <-. rewrite Hany in H.
      apply (IH Hall' _ _) in H; [done|].
      left. by rewrite Heq, lookup_insert_eq.
    + assert (costmap !! ks = Some m0 ∨
              ∃ src', src' ∈ srcs ∧ from_object parser src' = ks) as Hor'.
      { destruct Hor as [?|(src' & Hin & Hk)]; [by left|]. right.
        exists src'. apply elem_of_cons in Hin as [->|Hin]; [done|by split]. }
      destruct (any_key this_src); [|by apply (IH Hall' _ _ Hor' H)].
      apply (IH Hall' _ _) in H; [done|].
      destruct Hor' as [Hl|Hr]; [left; by rewrite lookup_insert_ne|by right].
Qed.

(** X27.  No computed cost is lost: when distinct address objects are
    written differently and [get_cost] returns, the cost computed for a
    requested pair is in the cost map under the keys of the pair, provided
    the key of the destination is not the empty string. *)
Theorem get_cost_keeps_costs in_srcs in_dsts costmap s d v :
  Inj (=) (=) (from_object parser) →
  get_cost nm parser in_srcs in_dsts = Ret costmap →
  s ∈ in_srcs → d ∈ in_dsts →
  get_residual_bw_for_path nm (path_of nm parser s d) = Ret (Some v) →
  key_of parser d ≠ EmptyString →
  ∃ this_src, costmap !! key_of parser s = Some this_src ∧
              this_src !! key_of parser d = Some v.
Proof.
  unfold get_cost, key_of, path_of. intros Hinj Hcost Hs Hd Hres Hkey.
  destruct (cost_srcs_each_returns _ _ (to_object parser s) _ _ Hcost)
    as [m0 Hm0]; [by apply list_elem_of_fmap_2|].
  assert (m0 !! from_object parser (to_object parser d) = Some v) as Hv.
  { eapply cost_dsts_complete; [| |exact Hm0].
    - intros dst _ Heq. by apply Hinj in Heq as ->.
    - right. exists (to_object parser d).
      split; [by apply list_elem_of_fmap_2|done]. }
  exists m0. split; [|done].
  eapply cost_srcs_complete; [| | |exact Hcost].
  - intros src _ Heq. by apply Hinj in Heq as ->.
  - by eapply any_key_lookup.
  - right. exists (to_object parser s).
    split; [by apply list_elem_of_fmap_2|done].
Qed.

Lemma cost_srcs_no_dsts srcs : ∀ costmap,
  cost_srcs nm parser srcs [] costmap = Ret costmap.
Proof. induction srcs as [|src srcs IH]; intros costmap; [done|apply IH]. Qed.

(** X28.  A request without sources or without destinations gives the
    empty cost map and computes no path, so it cannot raise. *)
Theorem get_cost_empty_request in_srcs in_dsts :
  get_cost nm parser [] in_dsts = Ret ∅ ∧
  get_cost nm parser in_srcs [] = Ret ∅.
Proof. split; [done|]. apply cost_srcs_no_dsts. Qed.

End CostMapFacts.

Section CostMapExamples.
Import PathLoad Props Derived Fixtures.

Lemma get_cost_entries_are_costs_witness :
  ∃ costmap this_src,
    get_cost lettered_line_net text_parser ["a"; "b"] ["b"; "c"] =
      Ret costmap ∧
    costmap !! "a" = Some this_src ∧
    this_src ≠ ∅ ∧
    ∀ kd v, this_src !! kd = Some v →
      ∃ s d, s ∈ ["a"; "b"] ∧ d ∈ ["b"; "c"] ∧
        key_of text_parser s = "a" ∧ key_of text_parser d = kd ∧
        get_residual_bw_for_path lettered_line_net
          (path_of lettered_line_net text_parser s d) = Ret (Some v).
Proof.
  assert (∃ costmap this_src,
            get_cost lettered_line_net text_parser ["a"; "b"] ["b"; "c"] =
              Ret costmap ∧
            costmap !! "a" = Some this_src)
    as (costmap & this_src & Hcost & Hks)
    by (eexists _, _; split; vm_compute; reflexivity).
  exists costmap, this_src. split; [exact Hcost|]. split; [exact Hks|].
  exact (get_cost_entries_are_costs lettered_line_net text_parser
           _ _ _ _ _ Hcost Hks).
Defined.

Lemma get_cost_keeps_costs_witness :
  ∃ costmap this_src,
    get_cost lettered_line_net text_parser ["a"; "b"] ["b"; "c"] =
      Ret costmap ∧
    costmap !! key_of text_parser "a" = Some this_src ∧
    this_src !! key_of text_parser "b" = Some 50.
Proof.
  assert (∃ costmap,
            get_cost lettered_line_net text_parser ["a"; "b"] ["b"; "c"] =
              Ret costmap)
    as [costmap Hcost] by (eexists; vm_compute; reflexivity).
  destruct (get_cost_keeps_costs lettered_line_net text_parser
              ["a"; "b"] ["b"; "c"] costmap "a" "b" 50 text_parser_inj Hcost)
    as (this_src & Hks & Hkd).
  - apply list_elem_of_here.
  - apply list_elem_of_here.
  - vm_compute. reflexivity.
  - intros H. discriminate H.
  - exists costmap, this_src. split; [exact Hcost|]. split; [exact Hks|exact Hkd].
Defined.

End CostMapExamples.

Section CoreNetDataLinkExamples.
Import CoreNetData Props Derived.

Lemma validate_log_witness :
  Forall (bridge_ok Fixtures.line_core) (_bridges Fixtures.line_core) ∧
  ¬ Forall (bridge_ok (load_data new Fixtures.dangling_topology).1)
      (_bridges (load_data new Fixtures.dangling_topology).1) ∧
  _bridges two_bad_bridges_core =
    [("b1", ("g01", "g10"))] ++
    ("b2", (EmptyString, EmptyString)) :: [("b3", ("g99", "g21"))] ∧
  Forall (bridge_ok two_bad_bridges_core) [("b1", ("g01", "g10"))] ∧
  ¬ bridge_ok two_bad_bridges_core ("b2", (EmptyString, EmptyString)) ∧
  ¬ bridge_ok two_bad_bridges_core ("b3", ("g99", "g21")) ∧
  _validate two_bad_bridges_core =
    [LogError "coredata::_validate(): %s bridge has no adapters!"].
Proof.
  destruct (validate_log Fixtures.line_core) as (_ & Hok & _).
  destruct (validate_log (load_data new Fixtures.dangling_topology).1)
    as (_ & Hbad & _).
  destruct (validate_log two_bad_bridges_core) as (_ & _ & Hfirst).
  assert (Forall (bridge_ok two_bad_bridges_core) [("b1", ("g01", "g10"))])
    as Hgood.
  { constructor; [|constructor]. split; [by left|].
    split; eexists; vm_compute; reflexivity. }
  assert (¬ bridge_ok two_bad_bridges_core
              ("b2", (EmptyString, EmptyString))) as Hb2.
  { intros [[Hne|Hne] _]; by apply Hne. }
  split; [by apply Hok|].
  split; [intros Hall; apply Hbad in Hall; discriminate Hall|].
  split; [reflexivity|]. split; [exact Hgood|]. split; [exact Hb2|].
  split; [intros (_ & [d Hd] & _); vm_compute in Hd; discriminate Hd|].
  exact (Hfirst [("b1", ("g01", "g10"))] ("b2", (EmptyString, EmptyString))
           [("b3", ("g99", "g21"))] eq_refl Hgood Hb2).
Defined.

Lemma get_peer_adapter_on_a_bridge_witness :
  (∃ n, (n, ("g23", "g32")) ∈ _bridges Fixtures.line_core ∨
        (n, ("g32", "g23")) ∈ _bridges Fixtures.line_core) ∧
  "eth0" ∉ link_ends (_bridges Fixtures.line_core).
Proof.
  destruct (get_peer_adapter_on_a_bridge Fixtures.line_core "g23")
    as [Hsome _].
  destruct (get_peer_adapter_on_a_bridge Fixtures.line_core "eth0")
    as [_ Hnone].
  split; [by apply Hsome|]. by apply Hnone.
Defined.

End CoreNetDataLinkExamples.
